(** * remgen: weighted generator dispatch, recency tracking, cleaning and
      length constraints

    A shallow embedding of the content-dispatch kernel of the repository:

    - [src/enhanced_ultimate_edge_generator.py]
      ([EnhancedUltimateEdgeGenerator]: pools, recency set, cleaner,
      length constraints, [generate_enhanced_edge_tweet]);
    - [src/simple_enhanced_edge_generator.py] ([generate_tweet]);
    - [src/app.py] ([generate_tweets]) and [src/private_api_server.py]
      ([generate_tweet_batch]): the two [if rand_val < ...] chains.

    Python strings are modelled as lists of characters ([text]); a
    character stands for a code point below 256.  [len], slicing and
    concatenation are the list operations. *)

From Stdlib Require Import Ascii String QArith.
From stdpp Require Import gmap strings list fin_maps sets.

Local Open Scope char_scope.
Local Open Scope list_scope.

Abbreviation text := (list ascii).

(** A Python string literal. *)
Definition txt (s : string) : text := list_ascii_of_string s.

(* ===================================================================== *)
(** ** Output formatter: [apply_length_constraints]                      *)
(* ===================================================================== *)

(** [s.rsplit(sep, 1)[0]]: what stands before the last [sep] of [s], and
    all of [s] when [sep] does not occur. *)
Fixpoint rsplit_head (sep : ascii) (s : text) : text :=
  match s with
  | [] => []
  | c :: s' =>
      if decide (sep ∈ s') then c :: rsplit_head sep s'
      else if decide (c = sep) then []
      else c :: s'
  end.

Definition apply_length_constraints (content : text) : text :=
  if decide (length content < 10) then []
  else if decide (280 < length content) then
    let truncated := take 277 content in
    if decide ("." ∈ truncated) then rsplit_head "." truncated ++ ["."]
    else if decide ("," ∈ truncated) then rsplit_head "," truncated
    else truncated ++ txt "..."
  else content.

(* ===================================================================== *)
(** ** Regular expressions, as Python's [re] module runs them            *)
(* ===================================================================== *)

(** The patterns of the cleaners use character classes, concatenation,
    alternation, greedy and lazy repetition, the anchors [^] and [$] and
    the word boundary [\b].  [re] searches leftmost and tries
    alternatives in priority order (first alternative first, longest
    repetition first for a greedy operator), which is what the
    backtracking matcher below does. *)
Inductive regex : Type :=
| Class (p : ascii → bool)       (* one character of a class *)
| Eps                            (* the empty pattern *)
| Seq (r1 r2 : regex)            (* r1 r2 *)
| Alt (r1 r2 : regex)            (* r1|r2 *)
| Star (r : regex)               (* r*, greedy *)
| LazyStar (r : regex)           (* r*?, lazy *)
| Bol                            (* ^ *)
| Eol                            (* $ *)
| WordBoundary.                  (* \b *)

Definition code (c : ascii) : nat := nat_of_ascii c.

Definition between (lo hi : nat) (c : ascii) : bool :=
  (lo <=? code c)%nat && (code c <=? hi)%nat.

(** [\d]: the decimal digits (below code point 256 only 0-9). *)
Definition is_digit (c : ascii) : bool := between 48 57 c.

(** [\s] and [str.isspace]: tab to carriage return, the separators
    0x1c-0x1f, space, NEL and the no-break space. *)
Definition is_space (c : ascii) : bool :=
  between 9 13 c || between 28 32 c || (code c =? 133)%nat || (code c =? 160)%nat.

(** [\w]: letters, digits and the underscore; the alphanumeric code
    points of the Latin-1 block count as well. *)
Definition is_word (c : ascii) : bool :=
  between 48 57 c || between 65 90 c || (code c =? 95)%nat || between 97 122 c
  || (code c =? 170)%nat || between 178 179 c || (code c =? 181)%nat
  || between 185 186 c || between 188 190 c
  || between 192 214 c || between 216 246 c || between 248 255 c.

Definition is_upper (c : ascii) : bool := between 65 90 c.
Definition is_alpha (c : ascii) : bool := between 65 90 c || between 97 122 c.

Definition lower (c : ascii) : ascii :=
  if is_upper c then ascii_of_nat (code c + 32) else c.

(** A literal character, and the same under [re.IGNORECASE]. *)
Definition Lit (c : ascii) : regex := Class (Ascii.eqb c).
Definition LitI (c : ascii) : regex := Class (λ x, Ascii.eqb (lower x) (lower c)).

Definition Plus (r : regex) : regex := Seq r (Star r).
Definition Opt (r : regex) : regex := Alt r Eps.

Fixpoint Seqs (rs : list regex) : regex :=
  match rs with
  | [] => Eps
  | [r] => r
  | r :: rs' => Seq r (Seqs rs')
  end.

Fixpoint Alts (rs : list regex) : regex :=
  match rs with
  | [] => Class (λ _, false)
  | [r] => r
  | r :: rs' => Alt r (Alts rs')
  end.

(** A literal string, and the same under [re.IGNORECASE]. *)
Definition Str (s : string) : regex := Seqs (Lit <$> txt s).
Definition StrI (s : string) : regex := Seqs (LitI <$> txt s).

(** [r{n,}] *)
Fixpoint AtLeast (n : nat) (r : regex) : regex :=
  match n with
  | 0 => Star r
  | S n' => Seq r (AtLeast n' r)
  end.

Definition is_word_at (c : option ascii) : bool :=
  match c with Some c => is_word c | None => false end.

(** [$] without [re.MULTILINE]: the end of the string, or just before a
    newline that ends it. *)
Definition at_end (s : text) : bool :=
  match s with
  | [] => true
  | [c] => Ascii.eqb c "010"
  | _ => false
  end.

(** A position of the subject: the character before it ([None] at the
    start) and what is left of the subject.  [rmatch r prev s k] matches
    [r] at the position [(prev, s)] and hands the position after the
    match to the continuation [k]; a [None] from [k] makes the matcher
    backtrack into the next alternative. *)
Fixpoint rmatch {A} (r : regex) (prev : option ascii) (s : text)
    (k : option ascii → text → option A) : option A :=
  match r with
  | Class p =>
      match s with
      | c :: s' => if p c then k (Some c) s' else None
      | [] => None
      end
  | Eps => k prev s
  | Seq r1 r2 => rmatch r1 prev s (λ prev' s', rmatch r2 prev' s' k)
  | Alt r1 r2 =>
      match rmatch r1 prev s k with
      | Some x => Some x
      | None => rmatch r2 prev s k
      end
  | Star r1 =>
      (fix loop (n : nat) (prev : option ascii) (s : text) : option A :=
         match n with
         | 0 => k prev s
         | S n' =>
             match rmatch r1 prev s
                     (λ prev' s', if decide (length s' < length s)
                                  then loop n' prev' s' else None) with
             | Some x => Some x
             | None => k prev s
             end
         end) (length s) prev s
  | LazyStar r1 =>
      (fix loop (n : nat) (prev : option ascii) (s : text) : option A :=
         match k prev s with
         | Some x => Some x
         | None =>
             match n with
             | 0 => None
             | S n' =>
                 rmatch r1 prev s
                   (λ prev' s', if decide (length s' < length s)
                                then loop n' prev' s' else None)
             end
         end) (length s) prev s
  | Bol => match prev with None => k prev s | Some _ => None end
  | Eol => if at_end s then k prev s else None
  | WordBoundary =>
      if xorb (is_word_at prev) (is_word_at (head s)) then k prev s else None
  end.

(** The match of [r] that starts at the position [(prev, s)]: the
    position right after it. *)
Definition match_here (r : regex) (prev : option ascii) (s : text)
    : option (option ascii * text) :=
  rmatch r prev s (λ prev' s', Some (prev', s')).

(** [re.sub(r, repl, s)] from the position [(prev, s)] on: the leftmost
    match is replaced and the scan resumes right after it; an empty match
    is replaced too and the scan steps over one character. *)
Fixpoint sub_from (fuel : nat) (r : regex) (repl : text)
    (prev : option ascii) (s : text) : text :=
  match fuel with
  | 0 => s
  | S fuel' =>
      match match_here r prev s with
      | Some (prev', s') =>
          if decide (length s' < length s)
          then repl ++ sub_from fuel' r repl prev' s'
          else match s with
               | [] => repl
               | c :: s'' => repl ++ c :: sub_from fuel' r repl (Some c) s''
               end
      | None =>
          match s with
          | [] => []
          | c :: s'' => c :: sub_from fuel' r repl (Some c) s''
          end
      end
  end.

Definition re_sub (r : regex) (repl : text) (s : text) : text :=
  sub_from (S (length s)) r repl None s.

(** [re.search(r, s) is not None], from the position [(prev, s)] on. *)
Fixpoint search_from (r : regex) (prev : option ascii) (s : text) : bool :=
  match match_here r prev s with
  | Some _ => true
  | None =>
      match s with
      | [] => false
      | c :: s' => search_from r (Some c) s'
      end
  end.

Definition re_search (r : regex) (s : text) : bool := search_from r None s.

(** [s.strip()] *)
Fixpoint lstrip (s : text) : text :=
  match s with
  | c :: s' => if is_space c then lstrip s' else s
  | [] => []
  end.

Definition rstrip (s : text) : text := reverse (lstrip (reverse s)).

Definition strip (s : text) : text := rstrip (lstrip s).


(* ===================================================================== *)
(** ** What the code takes from outside the repository                   *)
(* ===================================================================== *)

(** The standard library and the interpreter are not part of the
    repository; the embedding takes from them
    - [html.unescape],
    - [hashlib.md5(...).hexdigest()],
    - the order in which [list(s)] iterates a set [s] (any order: the
      properties below that depend on it hold for every choice), and
    - the random draws: for [DataFrame.sample] and [random.choice] the
      [n]-th draw is a natural number, reduced modulo the number of
      candidates; for [random.random()] it is a rational, and
    - the file system: whether [DataFrame.to_csv] writes the entry of
      the log file, for the call that has used [n] draws; a write that
      fails raises [OSError]. *)
Record Runtime : Type := {
  unescape : text → text;
  md5_hexdigest : text → text;
  set_order : gset text → list text;
  draw : nat → nat;
  random : nat → Q;
  to_csv : nat → bool;
}.

(** [html.unescape] starts with [if '&' not in s: return s]. *)
Definition unescape_plain (rt : Runtime) : Prop :=
  ∀ s : text, "&" ∉ s → unescape rt s = s.

(** [list(s)] lists the elements of [s], each once, in some order. *)
Definition set_order_sound (rt : Runtime) : Prop :=
  ∀ s : gset text, set_order rt s ≡ₚ elements s.

(* ===================================================================== *)
(** ** Content cleaner: [clean_edge_for_output]                          *)
(* ===================================================================== *)

Definition not_gt (c : ascii) : bool := negb (Ascii.eqb c ">").

(** [<[^>]+>] *)
Definition html_tag : regex := Seqs [Lit "<"; Plus (Class not_gt); Lit ">"].

(** [\b\d+\b] *)
Definition standalone_number : regex :=
  Seqs [WordBoundary; Plus (Class is_digit); WordBoundary].

(** [\bw\b] under [re.IGNORECASE] *)
Definition word (w : string) : regex := Seqs [WordBoundary; StrI w; WordBoundary].

Definition board_patterns : list regex :=
  [ Seqs [Lit ">"; Opt (Lit ">"); Plus (Class is_digit)]   (* >>?\d+ *)
  ; StrI "/pol/"; StrI "/r9k/"; StrI "/b/"; StrI "/x/"; StrI "/fit/"
  ; StrI "/v/"; StrI "/tv/"
  ; StrI "/a/"; StrI "/adv/"; StrI "/o/"; StrI "/ck/"; StrI "/g/"
  ; StrI "/mu/"; StrI "/lit/"
  ; StrI "/his/"; StrI "/sci/"
  ; word "OP"; word "4chan"; word "thread"; word "board"
  ; Plus (Lit ">")                                          (* >+ *)
  ].

(** [\s+] *)
Definition whitespace : regex := Plus (Class is_space).

(** [(kek|based|cringe|cope|seethe)] under [re.IGNORECASE] *)
Definition chan_artifact : regex :=
  Alts [StrI "kek"; StrI "based"; StrI "cringe"; StrI "cope"; StrI "seethe"].

(** [^(kek|based|cringe|cope|seethe)\s*] *)
Definition leading_artifact : regex :=
  Seqs [Bol; chan_artifact; Star (Class is_space)].

(** [\s*(kek|based|cringe|cope|seethe)$] *)
Definition trailing_artifact : regex :=
  Seqs [Star (Class is_space); chan_artifact; Eol].

Definition remove_all (patterns : list regex) (s : text) : text :=
  foldl (λ s pattern, re_sub pattern [] s) s patterns.

Definition clean_edge_for_output (rt : Runtime) (content : text) : text :=
  match content with
  | [] => []
  | _ =>
      let s := unescape rt content in
      let s := re_sub html_tag [] s in
      let s := re_sub standalone_number [] s in
      let s := remove_all board_patterns s in
      let s := re_sub whitespace (txt " ") s in
      let s := strip s in
      let s := re_sub leading_artifact [] s in
      let s := re_sub trailing_artifact [] s in
      s
  end.

(** *** Texts the cleaners leave alone *)

(** No pattern of [patterns] occurs in [s]. *)
Definition none_occurs (patterns : list regex) (s : text) : bool :=
  forallb (λ r, negb (re_search r s)) patterns.

(** Collapsing whitespace and stripping leave [s] as it is. *)
Definition whitespace_normal (s : text) : bool :=
  bool_decide (strip (re_sub whitespace (txt " ") s) = s).

(** [s] holds no [&], none of the patterns [clean_edge_for_output]
    removes, and only single spaces between its words. *)
Definition settled (s : text) : bool :=
  bool_decide ("&" ∉ s)
  && none_occurs (html_tag :: standalone_number :: board_patterns) s
  && whitespace_normal s
  && none_occurs [leading_artifact; trailing_artifact] s.

(* ===================================================================== *)
(** ** Content cleaner of the simple generator: [_clean_content]         *)
(* ===================================================================== *)

(** [s.replace(old, new)] for a non-empty [old]. *)
Definition replace (old : string) (new : text) (s : text) : text :=
  re_sub (Str old) new s.

Definition dquote : ascii := "034".

(** [<[^>]*?>] and [<[^>]*] *)
Definition closed_tag : regex := Seqs [Lit "<"; LazyStar (Class not_gt); Lit ">"].
Definition unclosed_tag : regex := Seq (Lit "<") (Star (Class not_gt)).

(** [&[a-zA-Z]+;] and [&#\d+;] *)
Definition named_entity : regex := Seqs [Lit "&"; Plus (Class is_alpha); Lit ";"].
Definition numeric_entity : regex := Seqs [Str "&#"; Plus (Class is_digit); Lit ";"].

(** [\d{6,}], [^\d+] and [\d+$] *)
Definition long_number : regex := AtLeast 6 (Class is_digit).
Definition leading_number : regex := Seq Bol (Plus (Class is_digit)).
Definition trailing_number : regex := Seq (Plus (Class is_digit)) Eol.

(** [>>[0-9]+] and [>>+] *)
Definition post_reference : regex := Seq (Str ">>") (Plus (Class (between 48 57))).
Definition arrows : regex := Seq (Lit ">") (Plus (Lit ">")).

(** [\n+], [\r+] and [\t+] *)
Definition newlines : regex := Plus (Lit "010").
Definition returns : regex := Plus (Lit "013").
Definition tabs : regex := Plus (Lit "009").

(** [\.{3,}], [!{2,}] and [\?{2,}] *)
Definition dots : regex := AtLeast 3 (Lit ".").
Definition bangs : regex := AtLeast 2 (Lit "!").
Definition question_marks : regex := AtLeast 2 (Lit "?").

(** [pd.isna(content)] does not hold of a string, and [str(content)] is
    the string itself. *)
Definition _clean_content (content : text) : text :=
  let s := content in
  let s := re_sub closed_tag [] s in
  let s := re_sub unclosed_tag [] s in
  let s := replace "&lt;" [] (replace "&gt;" [] s) in
  let s := replace "&quot;" [dquote] (replace "&amp;" (txt "&") s) in
  let s := re_sub named_entity [] s in
  let s := re_sub numeric_entity [] s in
  let s := replace ">" [] s in
  let s := re_sub html_tag [] s in
  let s := re_sub long_number [] s in
  let s := re_sub standalone_number [] s in
  let s := re_sub leading_number [] s in
  let s := re_sub trailing_number [] s in
  let s := re_sub post_reference [] s in
  let s := re_sub arrows [] s in
  let s := re_sub newlines (txt " ") s in
  let s := re_sub returns (txt " ") s in
  let s := re_sub tabs (txt " ") s in
  let s := re_sub dots (txt "...") s in
  let s := re_sub bangs (txt "!") s in
  let s := re_sub question_marks (txt "?") s in
  let s := re_sub whitespace (txt " ") s in
  strip s.

(** [s] holds none of the patterns [_clean_content] removes or replaces
    by a space, its runs of dots, exclamation and question marks are as
    the cleaner leaves them, and it has only single spaces between its
    words. *)
Definition settled_simple (s : text) : bool :=
  none_occurs
    [ closed_tag; unclosed_tag; Str "&gt;"; Str "&lt;"; Str "&amp;"; Str "&quot;"
    ; named_entity; numeric_entity; Str ">"; html_tag
    ; long_number; standalone_number; leading_number; trailing_number
    ; post_reference; arrows; newlines; returns; tabs ] s
  && bool_decide (re_sub dots (txt "...") s = s)
  && bool_decide (re_sub bangs (txt "!") s = s)
  && bool_decide (re_sub question_marks (txt "?") s = s)
  && whitespace_normal s.

(* ===================================================================== *)
(** ** Content store and category pools                                  *)
(* ===================================================================== *)

(** A row of the dataset, with the columns the generator reads. *)
Record Row : Type := {
  row_content : text;
  row_category : string;
  row_quality_score : Q;
  row_board : string;
}.

(** The state of an [EnhancedUltimateEdgeGenerator]: the data frame
    (a list of rows; [df.empty] is [df = []]), the pools by key, and
    the set of recent content hashes. *)
Record EdgeGenerator : Type := {
  df : list Row;
  content_pools : gmap string (list Row);
  recent_content : gset text;
}.

Definition max_recent : nat := 100.

Definition categories : list string :=
  ["sexual_edge" : string; "political_edge" : string;
   "dark_humor_edge" : string; "general_edge" : string].

Definition quality_at_least (k : Q) (r : Row) : bool := Qle_bool k (row_quality_score r).
Definition quality_below (k : Q) (r : Row) : bool := negb (Qle_bool k (row_quality_score r)).

(** The body of the loop [for category in categories].  [has_category]
    is ['category' in self.df.columns]: in a frame without that column
    every category takes the whole frame.  The quality score of a row is
    its value in the column [quality_score], or in [edge_quality] in a
    frame without [quality_score]. *)
Definition add_category_pools (has_category : bool) (df : list Row)
    (pools : gmap string (list Row)) (category : string)
    : gmap string (list Row) :=
  let type_content :=
    if has_category
    then List.filter (λ r, String.eqb (row_category r) category) df
    else df in
  match type_content with
  | [] => pools
  | _ =>
      <[ category +:+ "_good" := List.filter (quality_at_least 5) type_content ]>
      (<[ category +:+ "_medium" :=
            List.filter (λ r, quality_at_least 6 r && quality_below 8 r) type_content ]>
      (<[ category +:+ "_high" := List.filter (quality_at_least 8) type_content ]>
         pools))
  end.

Definition organize_content_pools (has_category : bool) (df : list Row)
    : gmap string (list Row) :=
  match df with
  | [] => ∅
  | _ => foldl (add_category_pools has_category df) ∅ categories
  end.

(** [__init__], after the dataset has been read: a frame with or
    without the column [category]. *)
Definition load_generator (has_category : bool) (df : list Row) : EdgeGenerator :=
  {| df := df; content_pools := organize_content_pools has_category df;
     recent_content := ∅ |}.

(** [__init__] on a dataset with the columns the scraper of the
    repository writes, [category] among them. *)
Definition new_generator (df : list Row) : EdgeGenerator := load_generator true df.

(* ===================================================================== *)
(** ** Recency tracker                                                   *)
(* ===================================================================== *)

(** [hashlib.md5(content.encode()).hexdigest()[:12]] *)
Definition get_content_hash (rt : Runtime) (content : text) : text :=
  take 12 (md5_hexdigest rt content).

Definition is_content_recent (rt : Runtime) (g : EdgeGenerator) (content : text) : bool :=
  bool_decide (get_content_hash rt content ∈ recent_content g).

(** [l[-n:]]: the last [n] elements; all of [l] when [n] is 0, as
    [-0] is [0]. *)
Definition slice_last {A} (n : nat) (l : list A) : list A :=
  match n with
  | 0 => l
  | _ => drop (length l - n) l
  end.

Definition track_content_usage (rt : Runtime) (g : EdgeGenerator) (content : text)
    : EdgeGenerator :=
  let content_hash := get_content_hash rt content in
  let recent := {[content_hash]} ∪ recent_content g in
  {| df := df g;
     content_pools := content_pools g;
     recent_content :=
       if decide (max_recent < size recent)
       then list_to_set (slice_last max_recent (set_order rt recent))
       else recent |}.

(** A sequence of [track_content_usage] calls. *)
Definition track_sequence (rt : Runtime) (g : EdgeGenerator) (contents : list text)
    : EdgeGenerator :=
  foldl (track_content_usage rt) g contents.

(* ===================================================================== *)
(** ** Content requests: [get_fresh_edge_content]                        *)
(* ===================================================================== *)

(** [needle in hay] on strings. *)
Fixpoint contains (needle hay : string) : bool :=
  String.prefix needle hay ||
  match hay with
  | EmptyString => false
  | String _ hay' => contains needle hay'
  end.

(** [pool.sample(n=1).iloc[0]] and [random.choice(pool)], with the
    [cur]-th draw; sampling an empty frame raises, which the callers
    exclude by testing [.empty] first. *)
Definition sample {A} (rt : Runtime) (pool : list A) (cur : nat) : option A :=
  pool !! (draw rt cur mod length pool).

Definition any_pool_key (style : string) (g : EdgeGenerator) : bool :=
  existsb (contains style) (elements (dom (content_pools g))).

Definition select_generation_style (rt : Runtime) (g : EdgeGenerator) (cur : nat)
    : string * nat :=
  let available_styles :=
    (if any_pool_key "sexual_edge" g then replicate 3 ("sexual_edge" : string) else []) ++
    (if any_pool_key "political_edge" g then replicate 2 ("political_edge" : string) else []) ++
    (if any_pool_key "dark_humor_edge" g then replicate 3 ("dark_humor_edge" : string) else []) ++
    (if any_pool_key "general_edge" g then replicate 4 ("general_edge" : string) else []) in
  match sample rt available_styles cur with
  | Some style => (style, S cur)
  | None => ("general_edge" : string, cur)
  end.

(** A pool that is absent or empty. *)
Definition unusable (pool : option (list Row)) : Prop :=
  pool = None ∨ pool = Some [].

(** The loop [for attempt in range(max_attempts)] over one pool. *)
Fixpoint sample_fresh (rt : Runtime) (g : EdgeGenerator) (pool : list Row)
    (attempts cur : nat) : option Row * nat :=
  match attempts with
  | 0 => (None, cur)
  | S attempts' =>
      match sample rt pool cur with
      | Some content_row =>
          if is_content_recent rt g (row_content content_row)
          then sample_fresh rt g pool attempts' (S cur)
          else (Some content_row, S cur)
      | None => (None, cur)
      end
  end.

(** The loop [for quality in quality_tiers]. *)
Fixpoint try_tiers (rt : Runtime) (g : EdgeGenerator) (style : string)
    (quality_tiers : list string) (max_attempts cur : nat) : option Row * nat :=
  match quality_tiers with
  | [] => (None, cur)
  | quality :: rest =>
      let pool_key := style +:+ "_" +:+ quality in
      match content_pools g !! pool_key with
      | Some ((_ :: _) as pool) =>
          match sample_fresh rt g pool max_attempts cur with
          | (Some content_row, cur') => (Some content_row, cur')
          | (None, cur') => try_tiers rt g style rest max_attempts cur'
          end
      | _ => try_tiers rt g style rest max_attempts cur
      end
  end.

Definition get_fresh_edge_content (rt : Runtime) (g : EdgeGenerator)
    (style quality_tier : option string) (max_attempts cur : nat)
    : option Row * nat :=
  let '(style, cur) :=
    match style with
    | Some style => (style, cur)
    | None => select_generation_style rt g cur
    end in
  let quality_tiers :=
    match quality_tier with
    | None => ["high" : string; "medium" : string; "good" : string]
    | Some quality_tier => [quality_tier]
    end in
  match try_tiers rt g style quality_tiers max_attempts cur with
  | (Some content_row, cur') => (Some content_row, cur')
  | (None, cur') =>
      match df g with
      | [] => (None, cur')
      | _ => (sample rt (df g) cur', S cur')
      end
  end.

(* ===================================================================== *)
(** ** The top-level call: [generate_enhanced_edge_tweet]                *)
(* ===================================================================== *)

Definition enhance_sexual_edge_content (content : text) : text := content.
Definition enhance_political_edge_content (content : text) : text := content.
Definition enhance_dark_humor_content (content : text) : text := content.

(** The exceptions the code can end in: [RecursionError] once the
    nesting of calls has used up the interpreter's recursion limit,
    [OSError] from a write to the log file that fails, and
    [AttributeError] from the read of an attribute that was never
    assigned. *)
Inductive exception : Type :=
| RecursionError
| OSError
| AttributeError.

(** What a call gives its caller: a value, or an exception. *)
Inductive outcome (A : Type) : Type :=
| Returns (a : A)
| Raises (e : exception).
Arguments Returns {A} a.
Arguments Raises {A} e.

(** [depth] is the number of nested calls the interpreter still allows.
    The result carries the returned string, the generator afterwards and
    the number of random draws used so far.  [log_edge_tweet] appends an
    entry to a log file after the content has been tracked; the write
    is not guarded, so the call raises when it fails, and the text of
    the entry is not modelled. *)
Fixpoint generate_enhanced_edge_tweet (rt : Runtime) (depth : nat)
    (g : EdgeGenerator) (style : option string) (cur : nat)
    : outcome (text * EdgeGenerator * nat) :=
  match depth with
  | 0 => Raises RecursionError
  | S depth' =>
      match df g with
      | [] => Returns (txt "No authentic edge content available", g, cur)
      | _ =>
          match get_fresh_edge_content rt g style None 20 cur with
          | (None, cur') => Returns (txt "Unable to generate fresh edge content", g, cur')
          | (Some content_row, cur') =>
              let raw_content := row_content content_row in
              let edge_type := row_category content_row in
              let cleaned_content := clean_edge_for_output rt raw_content in
              match cleaned_content with
              | [] => generate_enhanced_edge_tweet rt depth' g style cur'
              | _ =>
                  let enhanced_content :=
                    if String.eqb edge_type "sexual_edge"
                    then enhance_sexual_edge_content cleaned_content
                    else if String.eqb edge_type "political_edge"
                    then enhance_political_edge_content cleaned_content
                    else if String.eqb edge_type "dark_humor_edge"
                    then enhance_dark_humor_content cleaned_content
                    else cleaned_content in
                  let final_content := apply_length_constraints enhanced_content in
                  match final_content with
                  | [] => generate_enhanced_edge_tweet rt depth' g style cur'
                  | _ =>
                      if to_csv rt cur'
                      then Returns (final_content,
                                    track_content_usage rt g raw_content, cur')
                      else Raises OSError
                  end
              end
          end
      end
  end.

(** The text [generate_enhanced_edge_tweet] makes of a row: cleaned and
    cut to length (the three enhancement functions return their
    argument). *)
Definition final_content_of (rt : Runtime) (content_row : Row) : text :=
  apply_length_constraints (clean_edge_for_output rt (row_content content_row)).

(** The rows a content request can return: those of the store and those
    of the pools. *)
Definition drawable (g : EdgeGenerator) (row : Row) : Prop :=
  row ∈ df g ∨ ∃ key pool, content_pools g !! key = Some pool ∧ row ∈ pool.

(** A runtime for the closed examples.  Their texts hold no [&], where
    [html.unescape] returns its argument; the digest, the iteration
    order and the draws are one choice among those possible, and every
    write to the log file succeeds. *)
Definition example_runtime : Runtime :=
  {| unescape := λ s, s;
     md5_hexdigest := λ s, s;
     set_order := elements;
     draw := λ n, n;
     random := λ _, 0%Q;
     to_csv := λ _, true |}.

(** A store whose only row cleans to the empty string. *)
Definition kek_row : Row :=
  {| row_content := txt "kek"; row_category := "general_edge";
     row_quality_score := 9%Q; row_board := "b" |}.

(** A store with one row that cleaning and cutting accept. *)
Definition plain_row : Row :=
  {| row_content := txt "nobody reads the sticky"; row_category := "general_edge";
     row_quality_score := 9%Q; row_board := "b" |}.

(* ===================================================================== *)
(** ** Generator dispatch: the [if rand_val < ...] chains                *)
(* ===================================================================== *)

(** [random.random()] and the thresholds are doubles; a comparison of
    two doubles is the comparison of the rationals they denote, so a
    draw is a rational and a threshold is the exact value of its
    literal. *)
Definition double (m : Z) (e : positive) : Q := Qmake m (2 ^ e).

(** [x < y] *)
Definition Qltb (x y : Q) : bool := if Qlt_le_dec x y then true else false.

Definition f0_2 : Q := double 3602879701896397 54.   (* 0.2 *)
Definition f0_3 : Q := double 5404319552844595 54.   (* 0.3 *)
Definition f0_4 : Q := double 3602879701896397 53.   (* 0.4 *)
Definition f0_6 : Q := double 5404319552844595 53.   (* 0.6 *)
Definition f0_7 : Q := double 3152519739159347 52.   (* 0.7 *)
Definition f0_8 : Q := double 3602879701896397 52.   (* 0.8 *)
Definition f0_9 : Q := double 8106479329266893 53.   (* 0.9 *)

(** The module-level generator objects: [true] for an instance, [false]
    for [None] (its constructor raised at import time). *)
Record Generators : Type := {
  enhanced_edge_generator : bool;
  simple_edge_generator : bool;
  transcendent_generator : bool;
  simple_transcendental_generator : bool;
  ultra_enhanced_generator : bool;
  csv_generator : bool;
}.

(** Where the text of a draw comes from: the call of a generator, or a
    fixed string. *)
Inductive generator : Type :=
| EnhancedEdge            (* enhanced_edge_generator.generate_enhanced_edge_tweet() *)
| SimpleEdge              (* simple_edge_generator.generate_tweet() *)
| UltraEnhanced           (* ultra_enhanced_generator.generate_enhanced_tweet() *)
| Transcendent            (* transcendent_generator.generate_enhanced_content(...) *)
| SimpleTranscendental    (* simple_transcendental_generator.generate_quote() *)
| Csv.                    (* csv_generator.generate_content() *)

Inductive tweet_source : Type :=
| Call (g : generator)
| Static (s : string).

#[global] Instance generator_eq_dec : EqDecision generator.
Proof. solve_decision. Defined.

#[global] Instance tweet_source_eq_dec : EqDecision tweet_source.
Proof. solve_decision. Defined.

Definition available (gs : Generators) (g : generator) : bool :=
  match g with
  | EnhancedEdge => enhanced_edge_generator gs
  | SimpleEdge => simple_edge_generator gs
  | UltraEnhanced => ultra_enhanced_generator gs
  | Transcendent => transcendent_generator gs
  | SimpleTranscendental => simple_transcendental_generator gs
  | Csv => csv_generator gs
  end.

(** *** [generate_tweets] in app.py *)

Record Draw : Type := {
  tweet : tweet_source;
  generator_type : string;
  mood : string;
  intensity : string;
  board : string;
}.

Definition fallback (s : string) : Draw :=
  {| tweet := Static s; generator_type := "fallback"; mood := "fallback";
     intensity := "fallback"; board := "fallback" |}.

Definition enhanced_branch (gs : Generators) : Draw :=
  if enhanced_edge_generator gs then
    {| tweet := Call EnhancedEdge; generator_type := "enhanced_ultimate_edge";
       mood := "authentic_chan_edge"; intensity := "ultimate_edge_sophistication";
       board := "enhanced_4chan_content" |}
  else fallback "Enhanced edge generator not available".

Definition simple_branch (gs : Generators) : Draw :=
  if simple_edge_generator gs then
    {| tweet := Call SimpleEdge; generator_type := "simple_enhanced_edge";
       mood := "authentic_chan_simple"; intensity := "short_form_edge";
       board := "simple_4chan_content" |}
  else fallback "Simple edge generator not available".

Definition ultra_branch (gs : Generators) : Draw :=
  if ultra_enhanced_generator gs then
    {| tweet := Call UltraEnhanced; generator_type := "ultra_enhanced";
       mood := "political_conspiracy_pudgy_penguin"; intensity := "ultra_enhanced_edge";
       board := "political_paranoid_content" |}
  else fallback "Ultra enhanced generator not available".

Definition transcendent_branch (gs : Generators) : Draw :=
  if transcendent_generator gs then
    {| tweet := Call Transcendent; generator_type := "authentic_transcendent_quotes";
       mood := "authentic_spiritual_beauty"; intensity := "pure_transcendent_wisdom";
       board := "authentic_transcendent_content" |}
  else fallback "Transcendent generator not available".

Definition simple_transcendental_branch (gs : Generators) : Draw :=
  if simple_transcendental_generator gs then
    {| tweet := Call SimpleTranscendental; generator_type := "simple_transcendental";
       mood := "transcendental_mystical"; intensity := "pure_transcendental";
       board := "unified_mystical_content" |}
  else fallback "Simple transcendental generator not available".

Definition csv_branch (gs : Generators) : Draw :=
  if csv_generator gs then
    {| tweet := Call Csv; generator_type := "simple_csv";
       mood := "clean_curated_content"; intensity := "high_quality_memes";
       board := "curated_csv_content" |}
  else fallback "CSV generator not available".

Definition reserve_branch (gs : Generators) : Draw :=
  if csv_generator gs then
    {| tweet := Call Csv; generator_type := "simple_csv_fallback";
       mood := "clean_curated_content"; intensity := "high_quality_memes";
       board := "curated_csv_content" |}
  else
    {| tweet := Static "All generators unavailable"; generator_type := "system_fallback";
       mood := "fallback"; intensity := "fallback"; board := "fallback" |}.

(** One iteration of the loop of [generate_tweets], up to the test on
    the length of the tweet. *)
Definition generate_tweets_draw (gs : Generators) (rand_val : Q) : Draw :=
  if Qltb rand_val f0_2 then enhanced_branch gs
  else if Qltb rand_val f0_4 then simple_branch gs
  else if Qltb rand_val f0_6 then ultra_branch gs
  else if Qltb rand_val f0_7 then transcendent_branch gs
  else if Qltb rand_val f0_8 then simple_transcendental_branch gs
  else if Qltb rand_val f0_9 then csv_branch gs
  else reserve_branch gs.

(** [if not tweet or len(tweet) < 10: continue]: whether a draw with the
    text [tweet] is appended to the result. *)
Definition kept (tweet : text) : bool :=
  bool_decide (10 ≤ length tweet).

(** The thresholds of the chain, its branches in order, and the
    generator each branch calls. *)
Definition app_thresholds : list Q := [f0_2; f0_4; f0_6; f0_7; f0_8; f0_9].

Definition app_branches (gs : Generators) : list Draw :=
  [enhanced_branch gs; simple_branch gs; ultra_branch gs; transcendent_branch gs;
   simple_transcendental_branch gs; csv_branch gs; reserve_branch gs].

Definition app_generators : list generator :=
  [EnhancedEdge; SimpleEdge; UltraEnhanced; Transcendent; SimpleTranscendental; Csv; Csv].

(** *** [generate_tweet_batch] in private_api_server.py *)

Record BatchDraw : Type := {
  batch_tweet : tweet_source;
  batch_generator_type : string;
  batch_mood : string;
}.

Definition batch_simple : BatchDraw :=
  {| batch_tweet := Call SimpleEdge; batch_generator_type := "simple_enhanced_edge";
     batch_mood := "authentic_chan_simple" |}.

Definition batch_enhanced : BatchDraw :=
  {| batch_tweet := Call EnhancedEdge; batch_generator_type := "enhanced_ultimate_edge";
     batch_mood := "authentic_chan_enhanced" |}.

Definition batch_transcendent : BatchDraw :=
  {| batch_tweet := Call Transcendent; batch_generator_type := "transcendent_quote";
     batch_mood := "mystical_transcendent" |}.

Definition batch_simple_transcendental : BatchDraw :=
  {| batch_tweet := Call SimpleTranscendental;
     batch_generator_type := "simple_transcendental"; batch_mood := "pure_mystical" |}.

Definition batch_last (gs : Generators) : BatchDraw :=
  if ultra_enhanced_generator gs then
    {| batch_tweet := Call UltraEnhanced; batch_generator_type := "ultra_enhanced";
       batch_mood := "political_paranoid" |}
  else
    {| batch_tweet := Static "The algorithms have achieved consciousness...";
       batch_generator_type := "fallback"; batch_mood := "system_fallback" |}.

(** One iteration of the loop of [generate_tweet_batch]: each test of
    the chain is [rand_val < t and generator]. *)
Definition generate_tweet_batch_draw (gs : Generators) (rand_val : Q) : BatchDraw :=
  if Qltb rand_val f0_3 && simple_edge_generator gs then batch_simple
  else if Qltb rand_val f0_6 && enhanced_edge_generator gs then batch_enhanced
  else if Qltb rand_val f0_8 && transcendent_generator gs then batch_transcendent
  else if Qltb rand_val f0_9 && simple_transcendental_generator gs
  then batch_simple_transcendental
  else batch_last gs.

Definition batch_thresholds : list Q := [f0_3; f0_6; f0_8; f0_9].

(** *** The dispatcher of the specification *)

(** The walk the specification describes: go through the cumulative
    upper bounds in order and select the first entry whose bound exceeds
    [r]; the result is its index, the number of bounds when none does. *)
Fixpoint walk_boundaries (bounds : list Q) (r : Q) : nat :=
  match bounds with
  | [] => 0
  | b :: bounds' => if Qltb r b then 0 else S (walk_boundaries bounds' r)
  end.

(** The half-open intervals [lo, hi) that cumulative bounds cut out of
    [0, 1): the first starts at 0, each next one where the previous
    ends. *)
Definition intervals (bounds : list Q) : list (Q * Q) :=
  zip (0%Q :: bounds) bounds.

Definition contains_draw (i : Q * Q) (r : Q) : Prop :=
  (i.1 <= r)%Q ∧ (r < i.2)%Q.

(** Non-decreasing cumulative bounds, starting from [lo]. *)
Fixpoint increasing_from (lo : Q) (bounds : list Q) : Prop :=
  match bounds with
  | [] => True
  | b :: bounds' => (lo <= b)%Q ∧ increasing_from b bounds'
  end.

(** *** Tables for the statements about the two chains *)

(** The draw of each branch of [generate_tweets] when its generator is
    [None]. *)
Definition app_placeholders : list Draw :=
  [ fallback "Enhanced edge generator not available"
  ; fallback "Simple edge generator not available"
  ; fallback "Ultra enhanced generator not available"
  ; fallback "Transcendent generator not available"
  ; fallback "Simple transcendental generator not available"
  ; fallback "CSV generator not available"
  ; {| tweet := Static "All generators unavailable"; generator_type := "system_fallback";
       mood := "fallback"; intensity := "fallback"; board := "fallback" |} ].

Definition batch_ultra : BatchDraw :=
  {| batch_tweet := Call UltraEnhanced; batch_generator_type := "ultra_enhanced";
     batch_mood := "political_paranoid" |}.

Definition batch_placeholder : BatchDraw :=
  {| batch_tweet := Static "The algorithms have achieved consciousness...";
     batch_generator_type := "fallback"; batch_mood := "system_fallback" |}.

(** The branches of [generate_tweet_batch] in order: the generator a
    branch needs and the draw it produces. *)
Definition batch_chain : list (generator * BatchDraw) :=
  [ (SimpleEdge, batch_simple); (EnhancedEdge, batch_enhanced)
  ; (Transcendent, batch_transcendent)
  ; (SimpleTranscendental, batch_simple_transcendental)
  ; (UltraEnhanced, batch_ultra) ].

(** The first branch of [chain] whose generator is available; the fixed
    string when none is. *)
Fixpoint first_available (gs : Generators) (chain : list (generator * BatchDraw))
    : BatchDraw :=
  match chain with
  | [] => batch_placeholder
  | (g, d) :: chain' => if available gs g then d else first_available gs chain'
  end.

(** Availability states used in the examples. *)
Definition all_available : Generators :=
  {| enhanced_edge_generator := true; simple_edge_generator := true;
     transcendent_generator := true; simple_transcendental_generator := true;
     ultra_enhanced_generator := true; csv_generator := true |}.


Definition transcendent_missing : Generators :=
  {| enhanced_edge_generator := true; simple_edge_generator := true;
     transcendent_generator := false; simple_transcendental_generator := true;
     ultra_enhanced_generator := true; csv_generator := true |}.

(* ===================================================================== *)
(** ** The simple generator: [SimpleEnhancedEdgeGenerator.generate_tweet] *)
(* ===================================================================== *)

(** A row of the pools of the simple generator, with the columns
    [generate_tweet] reads. *)
Record SimpleRow : Type := {
  cleaned_content : text;
  content_length : nat;
}.

(** The state of a [SimpleEnhancedEdgeGenerator] whose dataset was
    read: its four pools and [recent_outputs], which [__init__] sets to
    [set()].  The state [__init__] leaves when the dataset is missing
    or cannot be read is [NotLoaded] below. *)
Record SimpleGenerator : Type := {
  short_pool : list SimpleRow;
  medium_pool : list SimpleRow;
  priority_short_pool : list SimpleRow;
  priority_medium_pool : list SimpleRow;
  recent_outputs : gset text;
}.

(** [s.split()]: the maximal runs of non-space characters; [word] holds
    the current run, reversed. *)
Fixpoint split_from (word : text) (s : text) : list text :=
  match s with
  | [] => match word with [] => [] | _ => [reverse word] end
  | c :: s' =>
      if is_space c
      then match word with
           | [] => split_from [] s'
           | _ => reverse word :: split_from [] s'
           end
      else split_from (c :: word) s'
  end.

Definition split (s : text) : list text := split_from [] s.

(** [sep.join(parts)] *)
Fixpoint join (sep : text) (parts : list text) : text :=
  match parts with
  | [] => []
  | [p] => p
  | p :: parts' => p ++ sep ++ join sep parts'
  end.

Definition clean_content_for_output (content : text) : text :=
  match content with
  | [] => content
  | _ =>
      let cleaned := strip (replace ">" [] content) in
      let cleaned := re_sub long_number [] cleaned in
      let cleaned := re_sub standalone_number [] cleaned in
      let cleaned := re_sub leading_number [] cleaned in
      let cleaned := re_sub trailing_number [] cleaned in
      let cleaned := join (txt " ") (split cleaned) in
      let cleaned :=
        if decide (200 < length cleaned) then take 197 cleaned ++ txt "..."
        else cleaned in
      strip cleaned
  end.

(** [generate_tweet] on a generator whose dataset was read.  The result
    carries the returned string, the generator afterwards and the number
    of random draws used so far. *)
Definition generate_tweet (rt : Runtime) (g : SimpleGenerator) (cur : nat)
    : text * SimpleGenerator * nat :=
  let use_priority := Qltb (random rt cur) f0_7 in
  let cur := S cur in
  let from_pool (pool : list SimpleRow) :=
    match sample rt pool cur with
    | Some selected_row =>
        (clean_content_for_output (cleaned_content selected_row), g, S cur)
    | None => (txt "Content pool exhausted", g, cur)
    end in
  let general :=
    match short_pool g, medium_pool g with
    | _ :: _, _ => from_pool (short_pool g)
    | [], _ :: _ =>
        let shorter_medium :=
          List.filter (λ r, content_length r <=? 150)%nat (medium_pool g) in
        match shorter_medium with
        | _ :: _ => from_pool shorter_medium
        | [] => (txt "Content pool exhausted", g, cur)
        end
    | [], [] => (txt "Content pool exhausted", g, cur)
    end in
  if use_priority then
    match priority_short_pool g, priority_medium_pool g with
    | _ :: _, _ => from_pool (priority_short_pool g)
    | [], _ :: _ => from_pool (priority_medium_pool g)
    | [], [] => general
    end
  else general.

(** A simple generator whose short pool holds one row. *)
Definition simple_example : SimpleGenerator :=
  {| short_pool := [ {| cleaned_content := txt "nobody reads the sticky";
                        content_length := 23 |} ];
     medium_pool := [];
     priority_short_pool := [];
     priority_medium_pool := [];
     recent_outputs := ∅ |}.

(* ===================================================================== *)
(** ** Measures of patterns                                              *)
(* ===================================================================== *)

(** The least number of characters a match of [r] holds. *)
Fixpoint min_len (r : regex) : nat :=
  match r with
  | Class _ => 1
  | Seq r1 r2 => min_len r1 + min_len r2
  | Alt r1 r2 => min_len r1 `min` min_len r2
  | Eps | Star _ | LazyStar _ | Bol | Eol | WordBoundary => 0
  end.

(** A pattern that begins with a character of the class [p] and matches
    at every such character: it fails where the next character is not in
    [p] (or the subject is at its end) and succeeds where it is. *)
Definition led_by (p : ascii → bool) (r : regex) : Prop :=
  (∀ prev, match_here r prev [] = None) ∧
  (∀ prev c s, p c = false → match_here r prev (c :: s) = None) ∧
  (∀ prev c s, p c = true → is_Some (match_here r prev (c :: s))) ∧
  1 ≤ min_len r.

(** The two states [__init__] leaves a [SimpleEnhancedEdgeGenerator]
    in.  When the dataset is missing or cannot be read, [df],
    [short_pool] and [medium_pool] are empty frames and the attributes
    [priority_short_pool] and [priority_medium_pool] are never
    assigned. *)
Inductive SimpleEnhancedEdgeGenerator : Type :=
| Loaded (g : SimpleGenerator)
| NotLoaded (outputs : gset text).

(** [generate_tweet] on either state.  Without the dataset the read of
    [self.priority_short_pool] raises when the draw asks for priority
    content; otherwise both frames are empty and the fixed string comes
    back. *)
Definition generate_tweet_on (rt : Runtime) (self : SimpleEnhancedEdgeGenerator)
    (cur : nat) : outcome (text * SimpleEnhancedEdgeGenerator * nat) :=
  match self with
  | Loaded g =>
      let '(tweet, g', cur') := generate_tweet rt g cur in
      Returns (tweet, Loaded g', cur')
  | NotLoaded _ =>
      let use_priority := Qltb (random rt cur) f0_7 in
      if use_priority then Raises AttributeError
      else Returns (txt "Content pool exhausted", self, S cur)
  end.

(** The loop of [generate_multiple_tweets]: [count] calls of
    [generate_tweet], each continuing with the draws the previous one
    left; a call that raises ends the loop. *)
Fixpoint generate_multiple_tweets (rt : Runtime) (self : SimpleEnhancedEdgeGenerator)
    (count cur : nat) : outcome (list text * SimpleEnhancedEdgeGenerator * nat) :=
  match count with
  | 0 => Returns ([], self, cur)
  | S count' =>
      match generate_tweet_on rt self cur with
      | Raises e => Raises e
      | Returns (tweet, self', cur') =>
          match generate_multiple_tweets rt self' count' cur' with
          | Raises e => Raises e
          | Returns (tweets, self'', cur'') => Returns (tweet :: tweets, self'', cur'')
          end
      end
  end.

(** The rows of the four pools of a simple generator. *)
Definition pool_rows (g : SimpleGenerator) : list SimpleRow :=
  short_pool g ++ medium_pool g ++ priority_short_pool g ++ priority_medium_pool g.

(** The rows a category takes: [self.df[self.df['category'] == category]]
    in a frame with the column [category], and [self.df] in one
    without. *)
Definition type_content_of (has_category : bool) (df : list Row)
    (category : string) : list Row :=
  if has_category
  then List.filter (λ r, String.eqb (row_category r) category) df
  else df.

(** [generate_multiple_edge_tweets]: the loop [for i in range(count)],
    from index [i] on with [n] rounds to go.  With [variety] the first
    four calls name the styles in turn and the later ones name none; a
    call that raises ends the loop. *)
Fixpoint edge_tweets_from (rt : Runtime) (depth : nat) (variety : bool)
    (n i : nat) (g : EdgeGenerator) (cur : nat)
    : outcome (list text * EdgeGenerator * nat) :=
  match n with
  | 0 => Returns ([], g, cur)
  | S n' =>
      let style :=
        if variety
        then if Nat.ltb i (length categories)
             then categories !! (i mod length categories)
             else None
        else None in
      match generate_enhanced_edge_tweet rt depth g style cur with
      | Raises e => Raises e
      | Returns (tweet, g', cur') =>
          match edge_tweets_from rt depth variety n' (S i) g' cur' with
          | Raises e => Raises e
          | Returns (tweets, g'', cur'') => Returns (tweet :: tweets, g'', cur'')
          end
      end
  end.

Definition generate_multiple_edge_tweets (rt : Runtime) (depth : nat)
    (g : EdgeGenerator) (count : nat) (variety : bool) (cur : nat)
    : outcome (list text * EdgeGenerator * nat) :=
  edge_tweets_from rt depth variety count 0 g cur.

(* ===================================================================== *)
(** ** The request guards of [app.py]                                    *)
(* ===================================================================== *)

(** A [datetime] is a count of microseconds; [timedelta(hours=1)] is
    [hour] of them. *)
Definition hour : Z := 3600000000.

Definition MAX_REQUESTS_PER_HOUR (endpoint_type : string) : option nat :=
  if String.eqb endpoint_type "generation" then Some 300
  else if String.eqb endpoint_type "upload" then Some 50
  else if String.eqb endpoint_type "api" then Some 1000
  else if String.eqb endpoint_type "video_download" then Some 2000
  else if String.eqb endpoint_type "page" then Some 500
  else None.

(** [MAX_REQUESTS_PER_HOUR.get(endpoint_type, 100)] *)
Definition max_allowed_of (endpoint_type : string) : nat :=
  default 100 (MAX_REQUESTS_PER_HOUR endpoint_type).

(** [RATE_LIMIT_STORAGE], a [defaultdict] of [defaultdict]s of lists:
    a key that is missing reads as the empty dictionary and the empty
    list. *)
Abbreviation RateLimitStorage := (gmap text (gmap string (list Z))).

Definition timestamps (storage : RateLimitStorage) (ip_address : text)
    (endpoint_type : string) : list Z :=
  default [] (default ∅ (storage !! ip_address) !! endpoint_type).

(** [is_rate_limited] at the time [now]: the answer and the storage
    afterwards. *)
Definition is_rate_limited (storage : RateLimitStorage) (now : Z)
    (ip_address : text) (endpoint_type : string) : bool * RateLimitStorage :=
  let hour_ago := (now - hour)%Z in
  let cleaned :=
    List.filter (λ timestamp, Z.ltb hour_ago timestamp)
      (timestamps storage ip_address endpoint_type) in
  let current_count := length cleaned in
  let max_allowed := max_allowed_of endpoint_type in
  if Nat.leb max_allowed current_count
  then (true,
        <[ip_address := <[endpoint_type := cleaned]>
                          (default ∅ (storage !! ip_address))]> storage)
  else (false,
        <[ip_address := <[endpoint_type := cleaned ++ [now]]>
                          (default ∅ (storage !! ip_address))]> storage).

(** A request as the [rate_limit] decorator sees it: the time of the
    call, the client address and the endpoint type. *)
Record Request : Type := {
  req_time : Z;
  req_ip : text;
  req_endpoint : string;
}.

(** The calls of [is_rate_limited] for a series of requests, one after
    the other on the same storage. *)
Fixpoint serve (storage : RateLimitStorage) (requests : list Request)
    : list bool * RateLimitStorage :=
  match requests with
  | [] => ([], storage)
  | r :: rest =>
      let '(limited, storage') :=
        is_rate_limited storage (req_time r) (req_ip r) (req_endpoint r) in
      let '(results, storage'') := serve storage' rest in
      (limited :: results, storage'')
  end.



(** [.] without [re.DOTALL]: any character but the newline. *)
Definition any_char : regex := Class (λ c, negb (Ascii.eqb c "010")).

(** [SUSPICIOUS_PATTERNS], each searched under [re.IGNORECASE]. *)
Definition SUSPICIOUS_PATTERNS : list regex :=
  [ Seqs [StrI "<script"; Star (Class not_gt); Lit ">"; LazyStar any_char;
          StrI "</script>"]                      (* <script[^>]*>.*?</script> *)
  ; StrI "javascript:"                           (* javascript: *)
  ; Seqs [StrI "on"; Plus (Class is_word); Star (Class is_space); Lit "="]
                                                 (* on\w+\s*= *)
  ; Seqs [StrI "<iframe"; Star (Class not_gt); Lit ">"; LazyStar any_char;
          StrI "</iframe>"]                      (* <iframe[^>]*>.*?</iframe> *)
  ; Seqs [StrI "DROP"; Plus (Class is_space); StrI "TABLE"]
                                                 (* DROP\s+TABLE *)
  ; Seqs [StrI "SELECT"; Plus (Class is_space); Lit "*"; Plus (Class is_space);
          StrI "FROM"]                           (* SELECT\s+\*\s+FROM *)
  ; Seqs [StrI "UNION"; Plus (Class is_space); StrI "SELECT"]
                                                 (* UNION\s+SELECT *)
  ; StrI "../"                                   (* \.\./ *)
  ; Seqs [StrI "eval"; Star (Class is_space); Lit "("]   (* eval\s*\( *)
  ; Seqs [StrI "exec"; Star (Class is_space); Lit "("]   (* exec\s*\( *)
  ].

(** [validate_input] on a string. *)
Definition validate_input (text_input : text) : bool :=
  match text_input with
  | [] => true
  | _ =>
      if existsb (λ pattern, re_search pattern text_input) SUSPICIOUS_PATTERNS
      then false
      else if Z.ltb 10000 (Z.of_nat (length text_input)) then false
      else true
  end.

(** [s.rsplit(sep, 1)[1]]: what stands after the last [sep] of [s];
    there is no such element when [sep] does not occur in [s]. *)
Fixpoint rsplit_tail (sep : ascii) (s : text) : option text :=
  match s with
  | [] => None
  | c :: s' =>
      match rsplit_tail sep s' with
      | Some tail => Some tail
      | None => if decide (c = sep) then Some s' else None
      end
  end.

(** [str.lower] on a character below code point 256: the capital
    letters of ASCII and of the Latin-1 block, the multiplication sign
    apart, move up by 32. *)
Definition str_lower (c : ascii) : ascii :=
  if between 65 90 c || (between 192 222 c && negb (code c =? 215)%nat)
  then ascii_of_nat (code c + 32)
  else c.

Definition ALLOWED_EXTENSIONS : list text :=
  [txt "png"; txt "jpg"; txt "jpeg"; txt "gif"; txt "webp"].

(** [allowed_file]; the test for the dot comes first, so that the
    second element of the split is there when it is taken. *)
Definition allowed_file (filename : text) : bool :=
  bool_decide ("." ∈ filename) &&
  match rsplit_tail "." filename with
  | Some extension => bool_decide (str_lower <$> extension ∈ ALLOWED_EXTENSIONS)
  | None => false
  end.

(* ===================================================================== *)
(** ** The text endpoints of [app.py] and [private_api_server.py]        *)
(* ===================================================================== *)

(** What [generate_ultra_enhanced_text] and
    [generate_terminally_online_text] (and [generate_ultra_enhanced],
    [generate_terminally_online] of the private server) make of the
    tweet of their generator. *)
Definition meme_text (tweet : text) : text :=
  let clean_text := strip (replace "- Remilio" [] tweet) in
  if decide (280 < length clean_text)
  then take 277 clean_text ++ txt "..."
  else clean_text.

(** [generate_terminally_online_text] of [app.py]: the text and the
    status of the response.  [simple_edge_generator] is the global of
    that name, [None] when the constructor raised; whatever the body
    raises is caught and answered with a fixed text. *)
Definition generate_terminally_online_text (rt : Runtime)
    (simple_edge_generator : option SimpleEnhancedEdgeGenerator) (cur : nat)
    : text * nat :=
  match simple_edge_generator with
  | None => (txt "anon is experiencing technical difficulties...", 500)
  | Some self =>
      match generate_tweet_on rt self cur with
      | Returns (tweet, _, _) => (meme_text tweet, 200)
      | Raises _ => (txt "anon is experiencing technical difficulties...", 500)
      end
  end.

(** [s.rfind(c, 0, hi)]: the index of the last [c] among the first [hi]
    characters of [s], and -1 when there is none. *)
Fixpoint rfind_from (c : ascii) (s : text) (i : Z) : Z :=
  match s with
  | [] => (-1)%Z
  | x :: s' =>
      let later := rfind_from c s' (i + 1)%Z in
      if (0 <=? later)%Z then later
      else if decide (x = c) then i else (-1)%Z
  end.

Definition rfind (c : ascii) (s : text) (hi : nat) : Z :=
  rfind_from c (take hi s) 0.

(** [s[:i]], where a negative [i] counts from the end. *)
Definition slice_to (i : Z) (s : text) : text :=
  if (i <? 0)%Z then take (length s - Z.to_nat (- i)) s
  else take (Z.to_nat i) s.

(** The cut to 280 characters of [generate_auto_text]. *)
Definition auto_text_cut (clean_text : text) : text :=
  if decide (280 < length clean_text) then
    if decide ("." ∈ take 277 clean_text)
    then slice_to (rfind "." clean_text 277 + 1) clean_text
    else if decide ("," ∈ take 277 clean_text)
    then slice_to (rfind "," clean_text 277) clean_text
    else take 277 clean_text ++ txt "..."
  else clean_text.

(** [^>\s*] and [\s*>+\s*$] *)
Definition leading_reference : regex :=
  Seqs [Bol; Lit ">"; Star (Class is_space)].
Definition trailing_reference : regex :=
  Seqs [Star (Class is_space); Plus (Lit ">"); Star (Class is_space); Eol].

(** What [generate_auto_text] makes of the tweet of the generator it
    drew. *)
Definition auto_text (tweet : text) : text :=
  let clean_text := strip (replace "- Remilio" [] tweet) in
  let clean_text := re_sub leading_reference [] clean_text in
  let clean_text := re_sub trailing_reference [] clean_text in
  auto_text_cut clean_text.

(** What [get_client_ip] reads of a request: the headers
    [X-Forwarded-For] and [X-Real-IP], and the address of the peer. *)
Record RequestHeaders : Type := {
  x_forwarded_for : option text;
  x_real_ip : option text;
  remote_addr : option text;
}.

(** [s.split(sep)[0]]: what stands before the first [sep] of [s]. *)
Fixpoint split_first (sep : ascii) (s : text) : text :=
  match s with
  | [] => []
  | c :: s' => if decide (c = sep) then [] else c :: split_first sep s'
  end.

Definition get_client_ip (request : RequestHeaders) : text :=
  match x_forwarded_for request with
  | Some ((_ :: _) as forwarded_for) => strip (split_first "," forwarded_for)
  | _ =>
      match x_real_ip request with
      | Some ((_ :: _) as real_ip) => real_ip
      | _ =>
          match remote_addr request with
          | Some ((_ :: _) as addr) => addr
          | _ => txt "127.0.0.1"
          end
      end
  end.

(** A call of a function under the [rate_limit] decorator: the time,
    the request and the endpoint type of the decorator. *)
Record GuardedCall : Type := {
  call_time : Z;
  call_request : RequestHeaders;
  call_endpoint : string;
}.

(** The test of the decorator,
    [is_rate_limited(get_client_ip(), endpoint_type)], for a series of
    calls. *)
Definition request_of (c : GuardedCall) : Request :=
  {| req_time := call_time c;
     req_ip := get_client_ip (call_request c);
     req_endpoint := call_endpoint c |}.

Definition rate_limit (storage : RateLimitStorage) (calls : list GuardedCall)
    : list bool * RateLimitStorage :=
  serve storage (request_of <$> calls).

(* ===================================================================== *)
(** ** How a content request runs                                        *)
(* ===================================================================== *)

(** The style a request works with, and the draws used once it is
    chosen: [if style is None: style = self.select_generation_style()]. *)
Definition requested_style (rt : Runtime) (g : EdgeGenerator)
    (style : option string) (cur : nat) : string * nat :=
  match style with
  | Some style => (style, cur)
  | None => select_generation_style rt g cur
  end.

(** The tiers a request goes through, in this order. *)
Definition requested_tiers (quality_tier : option string) : list string :=
  match quality_tier with
  | None => ["high" : string; "medium" : string; "good" : string]
  | Some quality_tier => [quality_tier]
  end.

(** The [n] samples of [pool] taken from the draw [cur] on are all
    recent; the pool may hold fresh rows that are not sampled. *)
Definition sampled_recent (rt : Runtime) (g : EdgeGenerator) (pool : list Row)
    (n cur : nat) : Prop :=
  ∀ i, i < n →
    ∃ row, sample rt pool (cur + i) = Some row ∧
           is_content_recent rt g (row_content row) = true.

(** Among the [n] samples of [pool] taken from the draw [cur] on, the
    one of index [i] is the first that is not recent, and it is
    [row]. *)
Definition first_fresh (rt : Runtime) (g : EdgeGenerator) (pool : list Row)
    (n cur i : nat) (row : Row) : Prop :=
  i < n ∧
  (∀ j, j < i →
     ∃ r, sample rt pool (cur + j) = Some r ∧
          is_content_recent rt g (row_content r) = true) ∧
  sample rt pool (cur + i) = Some row ∧
  is_content_recent rt g (row_content row) = false.

(** Every tier of a list fails, from the draw [cur] on, and the draws
    stand at [cur'] afterwards: the pool of the tier is absent or
    empty, which uses no draw, or its [n] samples are all recent. *)
Inductive tiers_exhausted (rt : Runtime) (g : EdgeGenerator) (style : string)
    (n : nat) : list string → nat → nat → Prop :=
| exhausted_nil cur : tiers_exhausted rt g style n [] cur cur
| exhausted_skip quality rest cur cur' :
    unusable (content_pools g !! (style +:+ "_" +:+ quality)) →
    tiers_exhausted rt g style n rest cur cur' →
    tiers_exhausted rt g style n (quality :: rest) cur cur'
| exhausted_recent quality rest pool cur cur' :
    content_pools g !! (style +:+ "_" +:+ quality) = Some pool →
    pool ≠ [] →
    sampled_recent rt g pool n cur →
    tiers_exhausted rt g style n rest (cur + n) cur' →
    tiers_exhausted rt g style n (quality :: rest) cur cur'.

(** A store with one row of quality 5: its high and medium pools are
    there and empty, its good pool holds the row. *)
Definition fair_row : Row :=
  {| row_content := txt "lurk more before posting"; row_category := "general_edge";
     row_quality_score := 5%Q; row_board := "b" |}.

(* ===================================================================== *)
(** ** Texts in normal form                                              *)
(* ===================================================================== *)











(* ===================================================================== *)
(** * Properties                                                         *)
(* ===================================================================== *)

Lemma rsplit_head_length sep s : length (rsplit_head sep s) ≤ length s.
Proof.
  induction s as [|c s IH]; simpl; [lia|].
  repeat case_decide; simpl; lia.
Qed.

Lemma rsplit_head_length_lt sep s :
  sep ∈ s → length (rsplit_head sep s) < length s.
Proof.
  induction s as [|c s IH]; simpl; intros Hin.
  - by apply elem_of_nil in Hin.
  - repeat case_decide; simpl; try lia.
    + specialize (IH ltac:(done)). lia.
    + apply elem_of_cons in Hin as [->|?]; done.
Qed.

Lemma rsplit_head_absent sep s : sep ∉ s → rsplit_head sep s = s.
Proof.
  induction s as [|c s IH]; simpl; intros Hnin; [done|].
  apply not_elem_of_cons in Hnin as [Hne Hnin].
  repeat case_decide; congruence.
Qed.

Example rsplit_head_ex1 : rsplit_head "." (txt "a.b.c") = txt "a.b".
Proof. reflexivity. Qed.

Example rsplit_head_ex2 : rsplit_head "." (txt "abc") = txt "abc".
Proof. reflexivity. Qed.

Example rsplit_head_ex3 : rsplit_head "," (txt ",abc") = [].
Proof. reflexivity. Qed.

(** The three truncation branches on texts of more than 280 characters:
    cut after the last full stop, cut before the last comma, cut at 277
    characters with an ellipsis. *)
Example apply_length_constraints_sentence :
  apply_length_constraints (txt "One. Two, three" ++ replicate 300 "a")
    = txt "One.".
Proof. by vm_compute. Qed.

Example apply_length_constraints_clause :
  apply_length_constraints (txt "One, two" ++ replicate 300 "a") = txt "One".
Proof. by vm_compute. Qed.

Example apply_length_constraints_hard :
  apply_length_constraints (replicate 281 "a") = replicate 277 "a" ++ txt "...".
Proof. by vm_compute. Qed.

(** C7 as stated fails below ten characters: a two-character text is
    within the limit and is not returned unchanged. *)
Lemma apply_length_constraints_short_changed :
  length (txt "hi") ≤ 280 ∧ apply_length_constraints (txt "hi") ≠ txt "hi".
Proof. split; [simpl; lia | discriminate]. Qed.

(** C7 (amended): a text of at least 10 and at most 280 characters is
    returned unchanged by [apply_length_constraints]. *)
Theorem apply_length_constraints_unchanged (content : text) :
  10 ≤ length content → length content ≤ 280 →
  apply_length_constraints content = content.
Proof.
  intros Hlo Hhi. unfold apply_length_constraints.
  repeat case_decide; try lia; done.
Qed.

Lemma apply_length_constraints_unchanged_witness :
  apply_length_constraints (txt "ten chars.") = txt "ten chars.".
Proof.
  apply (apply_length_constraints_unchanged (txt "ten chars.")); simpl; lia.
Defined.

Lemma apply_length_constraints_le content :
  length (apply_length_constraints content) ≤ 280.
Proof.
  unfold apply_length_constraints.
  repeat case_decide; try lia.
  - simpl. lia.
  - rewrite length_app. change (length ["."]) with 1.
    pose proof (rsplit_head_length_lt "." (take 277 content) ltac:(done)).
    pose proof (length_take_le content 277 ltac:(lia)). lia.
  - pose proof (rsplit_head_length "," (take 277 content)).
    pose proof (length_take_le content 277 ltac:(lia)). lia.
  - rewrite length_app. change (length (txt "...")) with 3.
    pose proof (length_take_le content 277 ltac:(lia)). lia.
Qed.

(** C8: the result of [apply_length_constraints] never has more than 280
    characters, on every branch. *)
Theorem apply_length_constraints_bound (content : text) :
  length (apply_length_constraints content) ≤ 280.
Proof. apply apply_length_constraints_le. Qed.

(** C10: a text of fewer than ten characters is turned into the empty
    string. *)
Theorem apply_length_constraints_short (content : text) :
  length content < 10 → apply_length_constraints content = [].
Proof.
  intros Hlt. unfold apply_length_constraints. by case_decide.
Qed.

Lemma apply_length_constraints_short_witness :
  apply_length_constraints (txt "too short") = [].
Proof.
  apply (apply_length_constraints_short (txt "too short")). simpl. lia.
Defined.

(* ===================================================================== *)
(** ** The recency set stays within its cap                              *)
(* ===================================================================== *)

Lemma size_list_to_set_le (l : list text) :
  size (list_to_set l : gset text) ≤ length l.
Proof.
  induction l as [|x l IH].
  - rewrite list_to_set_nil, size_empty. simpl. lia.
  - rewrite list_to_set_cons, size_union_alt, size_singleton. simpl.
    pose proof (subseteq_size (list_to_set l ∖ {[x]}) (list_to_set l : gset text)
                  (subseteq_difference_l _ _ _ (reflexivity _))).
    lia.
Qed.

Lemma slice_last_length {A} (n : nat) (l : list A) :
  0 < n → length (slice_last n l) ≤ n.
Proof.
  intros Hn. destruct n as [|n]; [lia|]. simpl.
  rewrite length_drop. lia.
Qed.

Lemma track_content_usage_size rt g content :
  size (recent_content (track_content_usage rt g content)) ≤ max_recent.
Proof.
  unfold track_content_usage. cbn [recent_content].
  case_decide as Hsize; [|lia].
  etrans; [apply size_list_to_set_le|].
  apply slice_last_length. unfold max_recent. lia.
Qed.

(** C4: the recency set holds at most [max_recent] hashes after each
    call of [track_content_usage]: after any sequence of calls on a new
    generator, and after any sequence of at least one call on any
    generator. *)
Theorem recent_content_bounded (rt : Runtime) :
  (∀ (df : list Row) (contents : list text),
     size (recent_content (track_sequence rt (new_generator df) contents))
       ≤ max_recent) ∧
  (∀ (g : EdgeGenerator) (contents : list text) (content : text),
     size (recent_content (track_sequence rt g (contents ++ [content])))
       ≤ max_recent).
Proof.
  split.
  - intros df0 contents.
    destruct contents as [|content contents _] using rev_ind.
    + change (size (∅ : gset text) ≤ max_recent). rewrite size_empty. lia.
    + unfold track_sequence. rewrite foldl_app. simpl.
      apply track_content_usage_size.
  - intros g contents content.
    unfold track_sequence. rewrite foldl_app. simpl.
    apply track_content_usage_size.
Qed.

(* ===================================================================== *)
(** ** Generator dispatch                                                *)
(* ===================================================================== *)

Lemma Qltb_true (x y : Q) : Qltb x y = true ↔ (x < y)%Q.
Proof.
  unfold Qltb. destruct (Qlt_le_dec x y) as [Hlt|Hle]; split; intros H; try done.
  exfalso. by apply (Qlt_not_le x y).
Qed.

Lemma Qltb_false (x y : Q) : Qltb x y = false ↔ (y <= x)%Q.
Proof.
  unfold Qltb. destruct (Qlt_le_dec x y) as [Hlt|Hle]; split; intros H; try done.
  exfalso. by apply (Qlt_not_le x y).
Qed.

(** Comparisons of closed rationals. *)
Ltac Qcompare :=
  repeat split; try reflexivity;
  first [ by vm_compute | apply Qltb_true; by vm_compute
        | apply Qltb_false; by vm_compute ].

Lemma increasing_from_lookup lo bounds i b :
  increasing_from lo bounds → bounds !! i = Some b → (lo <= b)%Q.
Proof.
  revert lo i. induction bounds as [|b0 bounds IH]; intros lo i Hinc Hi.
  - by rewrite lookup_nil in Hi.
  - destruct Hinc as [Hlo Hinc]. destruct i as [|i]; simpl in Hi.
    + by injection Hi as ->.
    + eapply Qle_trans; [exact Hlo|]. by eapply IH.
Qed.

(** The walk selects the interval that contains the draw. *)
Lemma walk_boundaries_interval lo bounds i iv r :
  increasing_from lo bounds →
  zip (lo :: bounds) bounds !! i = Some iv →
  contains_draw iv r →
  walk_boundaries bounds r = i.
Proof.
  revert lo i. induction bounds as [|b bounds IH]; intros lo i Hinc Hi [Hlo Hhi].
  - by destruct i.
  - destruct Hinc as [Hb Hinc]. destruct i as [|i]; simpl in Hi.
    + injection Hi as <-. simpl in *. by apply Qltb_true in Hhi as ->.
    + simpl. assert (b <= r)%Q as Hbr.
      { destruct (lookup_zip_with_Some pair (b :: bounds) bounds i iv)
          as [(x & y & -> & Hx & Hy) _]; [exact Hi|].
        eapply Qle_trans; [|exact Hlo]. simpl.
        destruct i as [|i]; simpl in Hx.
        - injection Hx as <-. apply Qle_refl.
        - by eapply increasing_from_lookup. }
      apply Qltb_false in Hbr as ->. f_equal. by eapply IH.
Qed.

Lemma walk_boundaries_snoc bounds b r i :
  walk_boundaries (bounds ++ [b]) r = i → i ≤ length bounds →
  walk_boundaries bounds r = i.
Proof.
  revert i. induction bounds as [|t bounds IH]; intros i Hw Hi; simpl in *.
  - lia.
  - destruct (Qltb r t); [done|].
    destruct i as [|i]; [done|]. f_equal. apply IH; [congruence | lia].
Qed.

Lemma intervals_length bounds : length (intervals bounds) = length bounds.
Proof.
  unfold intervals. rewrite length_zip_with.
  change (length (0%Q :: bounds)) with (S (length bounds)). lia.
Qed.

(** The index of the interval of [thresholds ++ [1]] that contains the
    draw is what the walk over the thresholds of a chain returns. *)
Lemma walk_thresholds thresholds i iv r :
  increasing_from 0 (thresholds ++ [1%Q]) →
  intervals (thresholds ++ [1%Q]) !! i = Some iv →
  contains_draw iv r →
  walk_boundaries thresholds r = i.
Proof.
  intros Hinc Hi Hr.
  apply (walk_boundaries_snoc thresholds 1%Q).
  - by eapply walk_boundaries_interval.
  - apply lookup_lt_Some in Hi. rewrite intervals_length, length_app in Hi.
    simpl in Hi. lia.
Qed.





Lemma app_thresholds_increasing : increasing_from 0 (app_thresholds ++ [1%Q]).
Proof. simpl. Qcompare. Qed.

Lemma batch_thresholds_increasing : increasing_from 0 (batch_thresholds ++ [1%Q]).
Proof. simpl. Qcompare. Qed.

(** [generate_tweets] walks its thresholds and runs the branch at the
    index the walk returns. *)
Lemma generate_tweets_walk gs r :
  app_branches gs !! walk_boundaries app_thresholds r
    = Some (generate_tweets_draw gs r).
Proof.
  unfold generate_tweets_draw, app_thresholds. simpl.
  repeat (match goal with |- context [Qltb r ?t] => destruct (Qltb r t) end;
          [reflexivity|]).
  reflexivity.
Qed.

Lemma Qltb_mono r a b : (a <= b)%Q → Qltb r a = true → Qltb r b = true.
Proof.
  intros Hab Ha. apply Qltb_true. apply Qltb_true in Ha.
  by eapply Qlt_le_trans.
Qed.

(** [generate_tweet_batch] walks its thresholds as well, and from the
    index the walk returns it takes the first branch whose generator is
    there. *)
Lemma generate_tweet_batch_walk gs r :
  generate_tweet_batch_draw gs r
    = first_available gs (drop (walk_boundaries batch_thresholds r) batch_chain).
Proof.
  unfold generate_tweet_batch_draw, batch_thresholds, batch_last. simpl.
  destruct (Qltb r f0_3) eqn:H3.
  { rewrite (Qltb_mono r f0_3 f0_6), (Qltb_mono r f0_3 f0_8),
      (Qltb_mono r f0_3 f0_9) by (done || Qcompare).
    by destruct gs as [[] [] [] [] [] ?]. }
  destruct (Qltb r f0_6) eqn:H6.
  { rewrite (Qltb_mono r f0_6 f0_8), (Qltb_mono r f0_6 f0_9) by (done || Qcompare).
    by destruct gs as [[] [] [] [] [] ?]. }
  destruct (Qltb r f0_8) eqn:H8.
  { rewrite (Qltb_mono r f0_8 f0_9) by (done || Qcompare).
    by destruct gs as [[] [] [] [] [] ?]. }
  destruct (Qltb r f0_9) eqn:H9; by destruct gs as [[] [] [] [] [] ?].
Qed.



(** The bounds are inclusive below and exclusive above: the draw 0.2
    itself belongs to the second branch of [generate_tweets], and the
    draw 0.3 to the second branch of [generate_tweet_batch]. *)
Example generate_tweets_draw_at_bound :
  generate_tweets_draw all_available f0_2 = simple_branch all_available ∧
  generate_tweet_batch_draw all_available f0_3 = batch_enhanced.
Proof. by vm_compute. Qed.


(** The fixed draws of [generate_tweets] carry a fixed string that
    passes the length test of the loop. *)
Lemma app_placeholders_kept i p :
  app_placeholders !! i = Some p → ∃ s, tweet p = Static s ∧ kept (txt s) = true.
Proof.
  intros Hp.
  do 7 (destruct i as [|i]; [injection Hp as <-; eexists; split; reflexivity|]).
  done.
Qed.

(** C6 as stated fails in [generate_tweet_batch]: with the transcendent
    generator missing, the draw 0.7 of its interval [0.6, 0.8) does not
    give a fixed string; the next generator of the chain serves it. *)
Lemma generate_tweet_batch_redistributes :
  intervals (batch_thresholds ++ [1%Q]) !! 2 = Some (f0_6, f0_8) ∧
  contains_draw (f0_6, f0_8) f0_7 ∧
  batch_chain !! 2 = Some (Transcendent, batch_transcendent) ∧
  available transcendent_missing Transcendent = false ∧
  batch_tweet (generate_tweet_batch_draw transcendent_missing f0_7)
    = Call SimpleTranscendental.
Proof. repeat split; by vm_compute. Qed.

(** C6 (amended): in [generate_tweets] a draw in the interval of a
    branch whose generator is missing yields the fixed draw of that
    branch, whatever the other generators are; in [generate_tweet_batch]
    such a draw goes to the first available generator further down the
    chain, and yields the fixed string only when there is none. *)
Theorem unavailable_generator_slice (gs : Generators) (r : Q) :
  (∀ i iv g p, intervals (app_thresholds ++ [1%Q]) !! i = Some iv →
               contains_draw iv r →
               app_generators !! i = Some g → available gs g = false →
               app_placeholders !! i = Some p →
               generate_tweets_draw gs r = p ∧
               ∃ s, tweet p = Static s ∧ kept (txt s) = true) ∧
  (∀ i iv g d, intervals (batch_thresholds ++ [1%Q]) !! i = Some iv →
               contains_draw iv r →
               batch_chain !! i = Some (g, d) → available gs g = false →
               generate_tweet_batch_draw gs r
                 = first_available gs (drop (S i) batch_chain)).
Proof.
  split.
  - intros i iv g p Hi Hr Hg Hav Hp.
    pose proof (generate_tweets_walk gs r) as Hwalk.
    rewrite (walk_thresholds app_thresholds i iv r
               app_thresholds_increasing Hi Hr) in Hwalk.
    split; [|by eapply app_placeholders_kept].
    assert (Some (generate_tweets_draw gs r) = Some p) as [= ->]; [|done].
    rewrite <- Hwalk, <- Hp. clear Hwalk Hp Hi Hr.
    do 7 (destruct i as [|i]; simpl in Hg;
          [ injection Hg as <-; simpl in Hav; simpl;
            unfold enhanced_branch, simple_branch, ultra_branch,
              transcendent_branch, simple_transcendental_branch, csv_branch,
              reserve_branch;
            by rewrite Hav | ]).
    done.
  - intros i iv g d Hi Hr Hchain Hav.
    rewrite generate_tweet_batch_walk.
    rewrite (walk_thresholds batch_thresholds i iv r
               batch_thresholds_increasing Hi Hr).
    rewrite (drop_S _ _ _ Hchain). simpl. by rewrite Hav.
Qed.

Lemma unavailable_generator_slice_witness :
  generate_tweets_draw transcendent_missing f0_6
    = fallback "Transcendent generator not available" ∧
  generate_tweet_batch_draw transcendent_missing f0_7 = batch_simple_transcendental.
Proof.
  split.
  - apply (proj1 (unavailable_generator_slice transcendent_missing f0_6)
             3 (f0_6, f0_7) Transcendent
             (fallback "Transcendent generator not available")).
    + reflexivity.
    + split; by vm_compute.
    + reflexivity.
    + reflexivity.
    + reflexivity.
  - apply (proj2 (unavailable_generator_slice transcendent_missing f0_7)
             2 (f0_6, f0_8) Transcendent batch_transcendent).
    + reflexivity.
    + split; by vm_compute.
    + reflexivity.
    + reflexivity.
Defined.

(* ===================================================================== *)
(** ** Content requests                                                  *)
(* ===================================================================== *)

Lemma sample_nonempty {A} rt (pool : list A) cur :
  pool ≠ [] → ∃ x, sample rt pool cur = Some x ∧ x ∈ pool.
Proof.
  intros Hne. unfold sample.
  assert (draw rt cur mod length pool < length pool) as Hlt.
  { apply Nat.mod_upper_bound. by destruct pool. }
  destruct (lookup_lt_is_Some_2 _ _ Hlt) as [x Hx].
  exists x. split; [done|]. by eapply list_elem_of_lookup_2.
Qed.

Section Requests.
  Context (rt : Runtime) (g : EdgeGenerator).

Lemma sample_fresh_Some pool attempts cur row cur' :
  sample_fresh rt g pool attempts cur = (Some row, cur') →
  row ∈ pool ∧ is_content_recent rt g (row_content row) = false ∧
  cur < cur' ≤ cur + attempts.
Proof.
  revert cur. induction attempts as [|n IH]; intros cur; simpl; [done|].
  destruct (sample rt pool cur) as [r|] eqn:Hs; [|done].
  destruct (is_content_recent rt g (row_content r)) eqn:Hrec.
  - intros H. destruct (IH _ H) as (? & ? & ?). repeat split; [done..|lia|lia].
  - intros [= -> <-]. repeat split; [|done|lia|lia].
    unfold sample in Hs. by eapply list_elem_of_lookup_2.
Qed.

Lemma sample_fresh_draws pool attempts cur :
  cur ≤ (sample_fresh rt g pool attempts cur).2 ≤ cur + attempts.
Proof.
  revert cur. induction attempts as [|n IH]; intros cur; simpl; [lia|].
  destruct (sample rt pool cur) as [r|]; simpl; [|lia].
  destruct (is_content_recent rt g (row_content r)); simpl; [|lia].
  specialize (IH (S cur)). lia.
Qed.

(** When every row of the pool is recent, the attempts are used up. *)
Lemma sample_fresh_all_recent pool attempts cur :
  (∀ row, row ∈ pool → is_content_recent rt g (row_content row) = true) →
  (sample_fresh rt g pool attempts cur).1 = None.
Proof.
  intros Hrec. revert cur. induction attempts as [|n IH]; intros cur; simpl; [done|].
  destruct (sample rt pool cur) as [r|] eqn:Hs; [|done].
  rewrite Hrec; [apply IH|].
  unfold sample in Hs. by eapply list_elem_of_lookup_2.
Qed.

(** When no row of the pool is recent, the first attempt succeeds. *)
Lemma sample_fresh_first pool attempts cur :
  pool ≠ [] → 0 < attempts →
  (∀ row, row ∈ pool → is_content_recent rt g (row_content row) = false) →
  ∃ row, row ∈ pool ∧ sample_fresh rt g pool attempts cur = (Some row, S cur).
Proof.
  intros Hne Hpos Hfresh. destruct attempts as [|n]; [lia|]. simpl.
  destruct (sample_nonempty rt pool cur Hne) as (row & -> & Hin).
  exists row. by rewrite Hfresh.
Qed.

Lemma try_tiers_skip style quality rest max_attempts cur :
  unusable (content_pools g !! (style +:+ "_" +:+ quality)) →
  try_tiers rt g style (quality :: rest) max_attempts cur
    = try_tiers rt g style rest max_attempts cur.
Proof. intros [H|H]; simpl; by rewrite H. Qed.

Lemma try_tiers_hit style quality rest max_attempts cur pool :
  content_pools g !! (style +:+ "_" +:+ quality) = Some pool →
  pool ≠ [] → 0 < max_attempts →
  (∀ row, row ∈ pool → is_content_recent rt g (row_content row) = false) →
  ∃ row, row ∈ pool ∧
    try_tiers rt g style (quality :: rest) max_attempts cur = (Some row, S cur).
Proof.
  intros Hpool Hne Hpos Hfresh.
  destruct pool as [|r0 pool]; [done|].
  cbn [try_tiers]. rewrite Hpool.
  destruct (sample_fresh_first (r0 :: pool) max_attempts cur Hne Hpos Hfresh)
    as (row & Hin & ->).
  by exists row.
Qed.

Lemma try_tiers_draws style tiers max_attempts cur :
  cur ≤ (try_tiers rt g style tiers max_attempts cur).2
      ≤ cur + length tiers * max_attempts.
Proof.
  revert cur. induction tiers as [|q tiers IH]; intros cur; simpl; [lia|].
  destruct (content_pools g !! _) as [[|r0 pool]|]; try (specialize (IH cur); lia).
  pose proof (sample_fresh_draws (r0 :: pool) max_attempts cur) as Hd.
  destruct (sample_fresh rt g (r0 :: pool) max_attempts cur) as [[row|] cur'];
    simpl in *; [lia|].
  specialize (IH cur'). lia.
Qed.

Lemma try_tiers_all_recent style tiers max_attempts cur :
  (∀ key pool row, content_pools g !! key = Some pool → row ∈ pool →
                   is_content_recent rt g (row_content row) = true) →
  (try_tiers rt g style tiers max_attempts cur).1 = None.
Proof.
  intros Hrec. revert cur. induction tiers as [|q tiers IH]; intros cur; simpl; [done|].
  destruct (content_pools g !! _) as [[|r0 pool]|] eqn:Hpool; try apply IH.
  pose proof (sample_fresh_all_recent (r0 :: pool) max_attempts cur
                (λ row Hin, Hrec _ _ row Hpool Hin)) as Hnone.
  destruct (sample_fresh rt g (r0 :: pool) max_attempts cur) as [[row|] cur'];
    simpl in *; [done|]. apply IH.
Qed.

Lemma select_generation_style_draws cur :
  cur ≤ (select_generation_style rt g cur).2 ≤ S cur.
Proof.
  unfold select_generation_style.
  destruct (sample rt _ cur); simpl; lia.
Qed.

(** On a non-empty store a content request returns a row. *)
Lemma get_fresh_edge_content_some
    (style quality_tier : option string) (max_attempts cur : nat) :
  df g ≠ [] →
  ∃ row, (get_fresh_edge_content rt g style quality_tier max_attempts cur).1
           = Some row.
Proof.
  intros Hdf. unfold get_fresh_edge_content.
  destruct (match style with
            | Some st => (st, cur)
            | None => select_generation_style rt g cur
            end) as [st c].
  destruct (try_tiers rt g st _ max_attempts c) as [[row|] c']; [by exists row|].
  destruct (sample_nonempty rt (df g) c' Hdf) as (row & Hs & _).
  exists row. destruct (df g); [done|]. by rewrite Hs.
Qed.

Lemma sample_fresh_exhausted pool attempts cur :
  sampled_recent rt g pool attempts cur →
  sample_fresh rt g pool attempts cur = (None, cur + attempts).
Proof.
  revert cur. induction attempts as [|n IH]; intros cur Hrec; simpl.
  { by rewrite Nat.add_0_r. }
  destruct (Hrec 0 ltac:(lia)) as (row & Hs & Hr). rewrite Nat.add_0_r in Hs.
  rewrite Hs, Hr, IH; [f_equal; lia|].
  intros i Hi. replace (S cur + i) with (cur + S i) by lia. apply Hrec. lia.
Qed.

Lemma sample_fresh_first_fresh pool attempts cur i row :
  first_fresh rt g pool attempts cur i row →
  sample_fresh rt g pool attempts cur = (Some row, S (cur + i)).
Proof.
  intros (Hi & Hbefore & Hs & Hfresh). revert cur attempts Hi Hbefore Hs.
  induction i as [|i IH]; intros cur attempts Hi Hbefore Hs.
  - destruct attempts as [|n]; [lia|]. simpl.
    rewrite Nat.add_0_r in Hs. rewrite Hs, Hfresh. by rewrite Nat.add_0_r.
  - destruct attempts as [|n]; [lia|]. simpl.
    destruct (Hbefore 0 ltac:(lia)) as (r & Hr & Hrec). rewrite Nat.add_0_r in Hr.
    rewrite Hr, Hrec, (IH (S cur) n); [f_equal; lia|lia| |].
    + intros j Hj. replace (S cur + j) with (cur + S j) by lia. apply Hbefore. lia.
    + by replace (S cur + i) with (cur + S i) by lia.
Qed.

(** Tiers that fail are passed, and the request goes on with the rest
    of the list. *)
Lemma try_tiers_exhausted style skipped rest max_attempts cur cur' :
  tiers_exhausted rt g style max_attempts skipped cur cur' →
  try_tiers rt g style (skipped ++ rest) max_attempts cur
    = try_tiers rt g style rest max_attempts cur'.
Proof.
  induction 1 as [cur|quality tiers cur cur' Hun _ IH
                 |quality tiers pool cur cur' Hpool Hne Hrec _ IH]; [done| |].
  - cbn [app]. by rewrite try_tiers_skip.
  - cbn [app try_tiers]. rewrite Hpool. destruct pool as [|r0 pool]; [done|].
    by rewrite (sample_fresh_exhausted _ _ _ Hrec).
Qed.

Lemma sample_elem_of {A} (pool : list A) cur x :
  sample rt pool cur = Some x → x ∈ pool.
Proof. unfold sample. apply list_elem_of_lookup_2. Qed.

Lemma get_fresh_edge_content_unfold
    (style quality_tier : option string) (max_attempts cur : nat) :
  get_fresh_edge_content rt g style quality_tier max_attempts cur
  = match try_tiers rt g (requested_style rt g style cur).1
            (requested_tiers quality_tier) max_attempts
            (requested_style rt g style cur).2 with
    | (Some content_row, cur') => (Some content_row, cur')
    | (None, cur') =>
        match df g with
        | [] => (None, cur')
        | _ => (sample rt (df g) cur', S cur')
        end
    end.
Proof.
  unfold get_fresh_edge_content, requested_style, requested_tiers.
  destruct style as [st|]; [done|].
  by destruct (select_generation_style rt g cur).
Qed.

(** C5: on a non-empty store [get_fresh_edge_content] returns a row and
    uses a bounded number of draws.  The tiers are gone through in the
    order high, medium, good: a tier whose pool is absent or empty is
    passed over without a draw, a tier whose [max_attempts] samples are
    all recent is left after them, and the first tier that samples a
    row that is not recent serves the request with that row.  When
    every tier fails in one of these two ways the request answers with
    a sample of the whole store, recent or not.  The style is the one
    asked for, or the one [select_generation_style] draws. *)
Theorem get_fresh_edge_content_returns
    (style quality_tier : option string) (max_attempts cur : nat) :
  df g ≠ [] →
  (∃ row, (get_fresh_edge_content rt g style quality_tier max_attempts cur).1
            = Some row) ∧
  (get_fresh_edge_content rt g style quality_tier max_attempts cur).2
     ≤ cur + 2 + 3 * max_attempts ∧
  (∀ skipped quality rest pool c i row,
     requested_tiers quality_tier = skipped ++ quality :: rest →
     tiers_exhausted rt g (requested_style rt g style cur).1 max_attempts skipped
       (requested_style rt g style cur).2 c →
     content_pools g !! ((requested_style rt g style cur).1 +:+ "_" +:+ quality)
       = Some pool →
     first_fresh rt g pool max_attempts c i row →
     row ∈ pool ∧
     get_fresh_edge_content rt g style quality_tier max_attempts cur
       = (Some row, S (c + i))) ∧
  (∀ c,
     tiers_exhausted rt g (requested_style rt g style cur).1 max_attempts
       (requested_tiers quality_tier) (requested_style rt g style cur).2 c →
     ∃ row, row ∈ df g ∧ sample rt (df g) c = Some row ∧
       get_fresh_edge_content rt g style quality_tier max_attempts cur
         = (Some row, S c)).
Proof.
  intros Hdf.
  split; [|split; [|split]].
  - by apply get_fresh_edge_content_some.
  - unfold get_fresh_edge_content.
    set (sc := match style with
               | Some st => (st, cur)
               | None => select_generation_style rt g cur
               end).
    assert (sc.2 ≤ S cur) as Hsc.
    { subst sc. destruct style; simpl; [lia|].
      pose proof (select_generation_style_draws cur). lia. }
    destruct sc as [st c]. simpl in Hsc.
    set (tiers := match quality_tier with
                  | Some q => [q]
                  | None => ["high" : string; "medium" : string; "good" : string]
                  end).
    assert (length tiers ≤ 3) as Hlen by (subst tiers; destruct quality_tier; simpl; lia).
    pose proof (try_tiers_draws st tiers max_attempts c) as Hd.
    destruct (try_tiers rt g st tiers max_attempts c) as [[row|] c']; simpl in *.
    + nia.
    + destruct (df g); simpl; nia.
  - intros skipped quality rest pool c i row Htiers Hskipped Hpool Hfresh.
    assert (row ∈ pool) as Hin.
    { destruct Hfresh as (_ & _ & Hs & _). by eapply sample_elem_of. }
    split; [done|].
    rewrite get_fresh_edge_content_unfold, Htiers.
    rewrite (try_tiers_exhausted _ _ _ _ _ _ Hskipped).
    cbn [try_tiers]. rewrite Hpool.
    destruct pool as [|r0 pool]; [by apply elem_of_nil in Hin|].
    by rewrite (sample_fresh_first_fresh _ _ _ _ _ Hfresh).
  - intros c Hall.
    rewrite get_fresh_edge_content_unfold.
    rewrite <- (app_nil_r (requested_tiers quality_tier)).
    rewrite (try_tiers_exhausted _ _ _ _ _ _ Hall). cbn [try_tiers].
    destruct (sample_nonempty rt (df g) c Hdf) as (row & Hs & Hin).
    exists row. destruct (df g); [done|]. by rewrite Hs.
Qed.

End Requests.

Lemma fair_row_sample cur :
  sample example_runtime [fair_row] cur = Some fair_row.
Proof. unfold sample. cbn [length]. by rewrite Nat.mod_1_r. Qed.

Lemma get_fresh_edge_content_returns_witness :
  (fair_row ∈ [fair_row] ∧
   get_fresh_edge_content example_runtime (new_generator [fair_row])
     (Some ("general_edge" : string)) None 20 0 = (Some fair_row, 1)) ∧
  (∃ row, row ∈ [fair_row] ∧ sample example_runtime [fair_row] 20 = Some row ∧
     get_fresh_edge_content example_runtime
       (track_content_usage example_runtime (new_generator [fair_row])
          (row_content fair_row))
       (Some ("general_edge" : string)) None 20 0 = (Some row, 21)).
Proof.
  split.
  - apply (proj1 (proj2 (proj2 (get_fresh_edge_content_returns example_runtime
             (new_generator [fair_row]) (Some ("general_edge" : string)) None 20 0
             ltac:(discriminate))))
             ["high" : string; "medium" : string] ("good" : string) []
             [fair_row] 0 0 fair_row).
    + done.
    + apply exhausted_skip; [by right|].
      apply exhausted_skip; [by right|]. apply exhausted_nil.
    + done.
    + split; [lia|]. split; [intros j Hj; lia|].
      split; [apply fair_row_sample|by vm_compute].
  - apply (proj2 (proj2 (proj2 (get_fresh_edge_content_returns example_runtime
             (track_content_usage example_runtime (new_generator [fair_row])
                (row_content fair_row))
             (Some ("general_edge" : string)) None 20 0
             ltac:(discriminate)))) 20).
    apply exhausted_skip; [by right|].
    apply exhausted_skip; [by right|].
    apply (exhausted_recent _ _ _ _ ("good" : string) [] [fair_row] 0 20);
      [done|done| |].
    + intros i Hi. exists fair_row. split; [apply fair_row_sample|by vm_compute].
    + apply exhausted_nil.
Defined.

(* ===================================================================== *)
(** ** The top-level call                                                *)
(* ===================================================================== *)

Lemma filter_elem_of {A} (p : A → bool) (l : list A) (x : A) :
  x ∈ List.filter p l → x ∈ l.
Proof.
  rewrite !list_elem_of_In. intros H. by apply filter_In in H as [? _].
Qed.

(** The pools hold rows of the store. *)
Lemma add_category_pools_rows has_category store pools category :
  (∀ key pool (row : Row), pools !! key = Some pool → row ∈ pool → row ∈ store) →
  ∀ key pool (row : Row),
    add_category_pools has_category store pools category !! key = Some pool →
    row ∈ pool → row ∈ store.
Proof.
  intros Hpools. unfold add_category_pools. cbv zeta.
  remember (if has_category
            then List.filter (λ r, String.eqb (row_category r) category) store
            else store)
    as type_content eqn:Hty.
  assert (∀ x, x ∈ type_content → x ∈ store) as Hsub.
  { intros x Hx. rewrite Hty in Hx. destruct has_category; [|done].
    by eapply filter_elem_of. }
  clear Hty. destruct type_content as [|t type_content]; [exact Hpools|].
  intros k p x Hk Hx.
  repeat (apply lookup_insert_Some in Hk as [[_ <-]|[_ Hk]];
          [by eapply Hsub, filter_elem_of|]).
  by eapply Hpools.
Qed.

Lemma organize_content_pools_rows has_category df0 key pool row :
  organize_content_pools has_category df0 !! key = Some pool → row ∈ pool → row ∈ df0.
Proof.
  unfold organize_content_pools.
  destruct df0 as [|r0 df0]; [by rewrite lookup_empty|].
  generalize (r0 :: df0). clear r0 df0. intros store.
  assert (∀ (cats : list string) (pools : gmap string (list Row)),
            (∀ key pool (row : Row),
               pools !! key = Some pool → row ∈ pool → row ∈ store) →
            ∀ key pool (row : Row),
              foldl (add_category_pools has_category store) pools cats !! key
                = Some pool →
              row ∈ pool → row ∈ store) as Hfold.
  { induction cats as [|c cats IH]; intros pools Hpools; [exact Hpools|].
    cbn [foldl]. by apply IH, add_category_pools_rows. }
  intros Hkey Hrow. eapply (Hfold categories ∅); [|exact Hkey|exact Hrow].
  intros k p x Hk. by rewrite lookup_empty in Hk.
Qed.

Lemma new_generator_drawable has_category df0 recent row :
  drawable {| df := df0; content_pools := organize_content_pools has_category df0;
              recent_content := recent |} row →
  row ∈ df0.
Proof.
  intros [Hdf|(key & pool & Hkey & Hrow)]; [done|].
  by eapply organize_content_pools_rows.
Qed.

Lemma try_tiers_drawable rt g style tiers max_attempts cur row cur' :
  try_tiers rt g style tiers max_attempts cur = (Some row, cur') →
  ∃ key pool, content_pools g !! key = Some pool ∧ row ∈ pool.
Proof.
  revert cur. induction tiers as [|q tiers IH]; intros cur; simpl; [done|].
  destruct (content_pools g !! _) as [[|r0 pool]|] eqn:Hpool; try apply IH.
  destruct (sample_fresh rt g (r0 :: pool) max_attempts cur) as [[r|] c] eqn:Hs.
  - intros [= -> <-]. apply sample_fresh_Some in Hs as [Hin _]. eauto.
  - apply IH.
Qed.

Lemma get_fresh_edge_content_drawable rt g style quality_tier max_attempts cur row cur' :
  get_fresh_edge_content rt g style quality_tier max_attempts cur = (Some row, cur') →
  drawable g row.
Proof.
  unfold get_fresh_edge_content.
  destruct (match style with
            | Some st => (st, cur)
            | None => select_generation_style rt g cur
            end) as [st c].
  destruct (try_tiers rt g st _ max_attempts c) as [[r|] c'] eqn:Ht.
  - intros [= -> <-]. right. by eapply try_tiers_drawable.
  - destruct (df g) as [|r0 rows] eqn:Hdf; [done|].
    intros [= Hs <-]. left. rewrite <- Hdf in Hs.
    unfold sample in Hs. by eapply list_elem_of_lookup_2.
Qed.

(** One call on a non-empty store: when the drawn row leaves a
    non-empty text, the text is returned if the log entry can be
    written and the call raises if it cannot; otherwise the call is
    repeated. *)
Lemma generate_enhanced_edge_tweet_step rt depth g style cur row cur' :
  df g ≠ [] →
  get_fresh_edge_content rt g style None 20 cur = (Some row, cur') →
  generate_enhanced_edge_tweet rt (S depth) g style cur =
    match final_content_of rt row with
    | [] => generate_enhanced_edge_tweet rt depth g style cur'
    | _ => if to_csv rt cur'
           then Returns (final_content_of rt row,
                         track_content_usage rt g (row_content row), cur')
           else Raises OSError
    end.
Proof.
  intros Hdf Hget. cbn [generate_enhanced_edge_tweet].
  destruct (df g) as [|r0 rows]; [done|]. rewrite Hget.
  unfold final_content_of, enhance_sexual_edge_content,
    enhance_political_edge_content, enhance_dark_humor_content.
  destruct (clean_edge_for_output rt (row_content row)) as [|c cleaned]; [done|].
  by repeat match goal with |- context [String.eqb ?a ?b] => destruct (String.eqb a b) end.
Qed.


(** What a returning call returns: one of the two fixed strings, or the
    text made of a drawable row, whose raw content has then been passed
    to [track_content_usage]. *)
Lemma generate_enhanced_edge_tweet_result rt depth g style cur s g' cur' :
  generate_enhanced_edge_tweet rt depth g style cur = Returns (s, g', cur') →
  (s = txt "No authentic edge content available" ∧ g' = g) ∨
  (s = txt "Unable to generate fresh edge content" ∧ g' = g) ∨
  (∃ row, drawable g row ∧ s = final_content_of rt row ∧ s ≠ [] ∧
          g' = track_content_usage rt g (row_content row)).
Proof.
  revert cur. induction depth as [|depth IH]; intros cur; [done|].
  destruct (df g) as [|r0 rows] eqn:Hdf.
  { cbn [generate_enhanced_edge_tweet]. rewrite Hdf. intros [= <- <- <-]. by left. }
  destruct (get_fresh_edge_content rt g style None 20 cur) as [[row|] c] eqn:Hget.
  - rewrite (generate_enhanced_edge_tweet_step rt depth g style cur row c);
      [|congruence|done].
    destruct (final_content_of rt row) as [|a final] eqn:Hfinal; [apply IH|].
    destruct (to_csv rt c); [|done].
    intros [= <- <- <-]. right. right. exists row.
    repeat split; [by eapply get_fresh_edge_content_drawable|done|done].
  - cbn [generate_enhanced_edge_tweet]. rewrite Hdf, Hget.
    intros [= <- <- <-]. right. by left.
Qed.






(* ===================================================================== *)
(** ** Content cleaner                                                   *)
(* ===================================================================== *)

(** A substitution changes nothing where its pattern does not occur. *)
Lemma sub_from_no_match fuel r repl prev s :
  search_from r prev s = false → sub_from fuel r repl prev s = s.
Proof.
  revert prev s. induction fuel as [|fuel IH]; intros prev s Hs; [done|].
  destruct s as [|c s]; simpl in *.
  - by destruct (match_here r prev []).
  - destruct (match_here r prev (c :: s)); [done|].
    f_equal. by apply IH.
Qed.

Lemma re_sub_no_match r repl s : re_search r s = false → re_sub r repl s = s.
Proof. apply sub_from_no_match. Qed.

Lemma remove_all_none_occurs patterns s :
  none_occurs patterns s = true → remove_all patterns s = s.
Proof.
  unfold none_occurs, remove_all.
  induction patterns as [|r patterns IH]; simpl; [done|].
  intros [Hr Hrest]%andb_prop. apply negb_true_iff in Hr.
  rewrite (re_sub_no_match r [] s Hr). by apply IH.
Qed.


Lemma none_occurs_cons r patterns s :
  none_occurs (r :: patterns) s = true →
  re_search r s = false ∧ none_occurs patterns s = true.
Proof.
  unfold none_occurs. cbn [forallb]. intros [Hr Hrest]%andb_prop.
  by apply negb_true_iff in Hr.
Qed.

(** A settled text is a fixed point of the cleaner. *)
Lemma clean_edge_for_output_fixed rt s :
  unescape_plain rt → settled s = true → clean_edge_for_output rt s = s.
Proof.
  intros Hplain Hs. unfold settled in Hs.
  apply andb_prop in Hs as [Hs Hart]. apply andb_prop in Hs as [Hs Hws].
  apply andb_prop in Hs as [Hamp Hpat]. apply bool_decide_eq_true in Hamp.
  apply none_occurs_cons in Hpat as [Htag Hpat].
  apply none_occurs_cons in Hpat as [Hnum Hboard].
  apply none_occurs_cons in Hart as [Hlead Hart].
  apply none_occurs_cons in Hart as [Htrail _].
  apply bool_decide_eq_true in Hws.
  unfold clean_edge_for_output. destruct s as [|c s]; [done|].
  rewrite (Hplain _ Hamp), (re_sub_no_match _ _ _ Htag), (re_sub_no_match _ _ _ Hnum).
  rewrite (remove_all_none_occurs _ _ Hboard), Hws.
  by rewrite (re_sub_no_match _ _ _ Hlead), (re_sub_no_match _ _ _ Htrail).
Qed.


(** The example of the specification: one pass removes the reference
    marker, the post number and the quoting arrow, and a second pass
    changes nothing. *)
Example clean_edge_for_output_reference :
  clean_edge_for_output example_runtime (txt ">>1234 lol this place >gay")
    = txt "lol this place gay" ∧
  clean_edge_for_output example_runtime (txt "lol this place gay")
    = txt "lol this place gay".
Proof. split; by vm_compute. Qed.


(** A settled text is a fixed point of the cleaner of the simple
    generator. *)
Lemma _clean_content_fixed s : settled_simple s = true → _clean_content s = s.
Proof.
  intros Hs. unfold settled_simple in Hs.
  apply andb_prop in Hs as [Hs Hws]. apply andb_prop in Hs as [Hs Hq].
  apply andb_prop in Hs as [Hs Hb]. apply andb_prop in Hs as [Hpat Hd].
  apply bool_decide_eq_true in Hws, Hq, Hb, Hd.
  repeat (let H := fresh "Hr" in apply none_occurs_cons in Hpat as [H Hpat]).
  unfold _clean_content, replace. cbv zeta.
  repeat match goal with
         | H : re_search ?r s = false |- _ =>
             rewrite (re_sub_no_match r _ s H); clear H
         end.
  by rewrite Hd, Hb, Hq, Hws.
Qed.



(* ===================================================================== *)
(** ** Recording of emitted snippets                                     *)
(* ===================================================================== *)

Lemma slice_last_elem_of {A} (n : nat) (l : list A) (x : A) :
  x ∈ slice_last n l → x ∈ l.
Proof.
  destruct n as [|n]; simpl; [done|].
  intros Hx. rewrite <- (take_drop (length l - S n) l).
  apply elem_of_app. by right.
Qed.

(** Whatever the order of iteration, the set after a call holds hashes
    of the set before and the hash of the content, nothing else. *)
Lemma track_content_usage_subseteq rt g content :
  set_order_sound rt →
  recent_content (track_content_usage rt g content)
    ⊆ {[get_content_hash rt content]} ∪ recent_content g.
Proof.
  intros Hsound. unfold track_content_usage. cbn [recent_content].
  case_decide as Hsize; [|done].
  intros h Hh. apply elem_of_list_to_set, slice_last_elem_of in Hh.
  rewrite (Hsound _) in Hh. by apply elem_of_elements in Hh.
Qed.

(** After [track_content_usage] the hash of the content is in the set,
    unless the set was full and the hash new: the cut to the last
    [max_recent] elements of an arbitrary order may then drop it. *)
Lemma track_content_usage_records rt g content :
  size (recent_content g) < max_recent ∨
    (get_content_hash rt content ∈ recent_content g ∧
     size (recent_content g) ≤ max_recent) →
  get_content_hash rt content
    ∈ recent_content (track_content_usage rt g content).
Proof.
  intros Hroom. unfold track_content_usage. cbn [recent_content].
  case_decide as Hsize.
  - exfalso. destruct Hroom as [Hlt|[Hin Hle]].
    + rewrite size_union_alt, size_singleton in Hsize.
      pose proof (subseteq_size (recent_content g ∖ {[get_content_hash rt content]})
                    (recent_content g) (subseteq_difference_l _ _ _ (reflexivity _))).
      lia.
    + rewrite (subseteq_union_1_L {[get_content_hash rt content]} (recent_content g))
        in Hsize; [lia|].
      by apply singleton_subseteq_l.
  - apply elem_of_union. left. by apply elem_of_singleton.
Qed.

(** On a non-empty store a returning call of the enhanced generator has
    emitted the text of a drawable row and has passed the raw content of
    that row to [track_content_usage]. *)
Lemma generate_enhanced_edge_tweet_tracks rt depth g style cur s g' cur' :
  df g ≠ [] →
  generate_enhanced_edge_tweet rt depth g style cur = Returns (s, g', cur') →
  ∃ row, drawable g row ∧ s = final_content_of rt row ∧ s ≠ [] ∧
         g' = track_content_usage rt g (row_content row).
Proof.
  intros Hdf. revert cur. induction depth as [|depth IH]; intros cur; [done|].
  destruct (get_fresh_edge_content_some rt g style None 20 cur Hdf)
    as [row Hrow].
  destruct (get_fresh_edge_content rt g style None 20 cur) as [o c] eqn:Hget.
  simpl in Hrow. subst o.
  rewrite (generate_enhanced_edge_tweet_step rt depth g style cur row c Hdf Hget).
  destruct (final_content_of rt row) as [|a final] eqn:Hfinal; [apply IH|].
  destruct (to_csv rt c); [|done].
  intros [= <- <- <-]. exists row.
  repeat split; [by eapply get_fresh_edge_content_drawable|done|done].
Qed.

(** C9: [generate_tweet] of the simple generator returns its text and
    leaves [recent_outputs] as it was; on the example generator it
    emits the row of the short pool and the set stays empty. *)
Theorem generate_tweet_records_nothing (rt : Runtime) (g : SimpleGenerator)
    (cur : nat) :
  recent_outputs (generate_tweet rt g cur).1.2 = recent_outputs g ∧
  (generate_tweet example_runtime simple_example 0).1.1
    = txt "nobody reads the sticky" ∧
  recent_outputs (generate_tweet example_runtime simple_example 0).1.2 = ∅.
Proof.
  split; [|split; by vm_compute].
  unfold generate_tweet.
  repeat match goal with
         | |- context [match ?x with _ => _ end] => destruct x
         | |- context [if ?x then _ else _] => destruct x
         end; reflexivity.
Qed.

(* ===================================================================== *)
(** ** The generator on a one-row store                                  *)
(* ===================================================================== *)

(** The pools of a store with one general row of quality 9: the high
    and good pools hold the row, the medium pool is there and empty, and
    no other category has a pool. *)
Example organize_content_pools_one_row :
  organize_content_pools true [plain_row] !! ("general_edge_high" : string)
    = Some [plain_row] ∧
  organize_content_pools true [plain_row] !! ("general_edge_medium" : string)
    = Some [] ∧
  organize_content_pools true [plain_row] !! ("general_edge_good" : string)
    = Some [plain_row] ∧
  organize_content_pools true [plain_row] !! ("sexual_edge_high" : string) = None.
Proof. repeat split; by vm_compute. Qed.

(** One call on that store: a draw for the style, a draw for the row;
    the text comes back and the hash of the raw content is recorded. *)
Example generate_enhanced_edge_tweet_one_row :
  match generate_enhanced_edge_tweet example_runtime 1
          (new_generator [plain_row]) None 0 with
  | Returns (s, g', cur') =>
      s = txt "nobody reads the sticky" ∧ cur' = 2 ∧
      recent_content g' = {[ txt "nobody reads" ]}
  | Raises _ => False
  end.
Proof. by vm_compute. Qed.

(* ===================================================================== *)
(** * Further properties of the code                                     *)
(* ===================================================================== *)

(* ===================================================================== *)
(** ** What a match consumes                                             *)
(* ===================================================================== *)

(** A successful match hands its continuation a position further on in
    the subject: the subject is the matched text followed by the rest,
    and the matched text has at least [min_len r] characters. *)
Lemma rmatch_consumes (r : regex) :
  ∀ A prev s (k : option ascii → text → option A) x,
    rmatch r prev s k = Some x →
    ∃ prev' m s', k prev' s' = Some x ∧ s = m ++ s' ∧ min_len r ≤ length m.
Proof.
  induction r as [p| |r1 IH1 r2 IH2|r1 IH1 r2 IH2|r1 IH1|r1 IH1| | |];
    intros A prev s k x; cbn [rmatch min_len].
  - destruct s as [|c s]; [done|]. destruct (p c); [|done].
    intros Hk. exists (Some c), [c], s. by repeat split.
  - intros Hk. exists prev, [], s. repeat split; [done|simpl; lia].
  - intros Hk. apply IH1 in Hk as (p1 & m1 & s1 & Hk & -> & Hm1).
    apply IH2 in Hk as (p2 & m2 & s2 & Hk & -> & Hm2).
    exists p2, (m1 ++ m2), s2. rewrite length_app, <- (assoc (++)).
    repeat split; [done|lia].
  - destruct (rmatch r1 prev s k) as [y|] eqn:H1.
    + intros [= ->]. apply IH1 in H1 as (p1 & m1 & s1 & Hk & -> & Hm1).
      exists p1, m1, s1. repeat split; [done|lia].
    + intros H2. apply IH2 in H2 as (p2 & m2 & s2 & Hk & -> & Hm2).
      exists p2, m2, s2. repeat split; [done|lia].
  - generalize (length s) at 1. intros n. revert prev s.
    induction n as [|n IHn]; intros prev s.
    + intros Hk. exists prev, [], s. repeat split; [done|simpl; lia].
    + match goal with
      | |- context [rmatch r1 prev s ?k1] =>
          destruct (rmatch r1 prev s k1) as [y|] eqn:H1
      end.
      * intros [= ->]. apply IH1 in H1 as (p1 & m1 & s1 & Hk & -> & _).
        case_decide; [|done].
        apply IHn in Hk as (p2 & m2 & s2 & Hk & -> & _).
        exists p2, (m1 ++ m2), s2. rewrite <- (assoc (++)).
        repeat split; [done|lia].
      * intros Hk. exists prev, [], s. repeat split; [done|simpl; lia].
  - generalize (length s) at 1. intros n. revert prev s.
    induction n as [|n IHn]; intros prev s.
    + destruct (k prev s) as [y|] eqn:Hk; [|done].
      intros [= ->]. exists prev, [], s. repeat split; [done|simpl; lia].
    + destruct (k prev s) as [y|] eqn:Hk.
      * intros [= ->]. exists prev, [], s. repeat split; [done|simpl; lia].
      * intros H1. apply IH1 in H1 as (p1 & m1 & s1 & H1 & -> & _).
        case_decide; [|done].
        apply IHn in H1 as (p2 & m2 & s2 & H1 & -> & _).
        exists p2, (m1 ++ m2), s2. rewrite <- (assoc (++)).
        repeat split; [done|lia].
  - destruct prev; [done|]. intros Hk. exists None, [], s.
    repeat split; [done|simpl; lia].
  - destruct (at_end s); [|done]. intros Hk. exists prev, [], s.
    repeat split; [done|simpl; lia].
  - destruct (xorb _ _); [|done]. intros Hk. exists prev, [], s.
    repeat split; [done|simpl; lia].
Qed.

Lemma match_here_consumes r prev s prev' s' :
  match_here r prev s = Some (prev', s') →
  ∃ m, s = m ++ s' ∧ min_len r ≤ length m.
Proof.
  unfold match_here. intros H.
  apply rmatch_consumes in H as (p & m & s0 & [= -> ->] & -> & Hm). by exists m.
Qed.

(* ===================================================================== *)
(** ** What a substitution leaves                                        *)
(* ===================================================================== *)

(** A substitution brings in no character of its own: what it returns
    comes from the replacement or from the subject. *)
Lemma sub_from_elem_of fuel r repl prev s x :
  x ∈ sub_from fuel r repl prev s → x ∈ repl ∨ x ∈ s.
Proof.
  revert prev s. induction fuel as [|fuel IH]; intros prev s; [by right|].
  cbn [sub_from].
  destruct (match_here r prev s) as [[p' s']|] eqn:Hm.
  - apply match_here_consumes in Hm as (m & -> & _).
    case_decide.
    + intros [?|Hx%IH]%elem_of_app; [by left|].
      destruct Hx; [by left|]. right. apply elem_of_app. by right.
    + destruct (m ++ s') as [|c s'']; [by left|].
      intros [?|[->|Hx%IH]%elem_of_cons]%elem_of_app; [by left| |].
      * right. by left.
      * destruct Hx; [by left|]. right. by right.
  - destruct s as [|c s'']; [by right|].
    intros [->|Hx%IH]%elem_of_cons; [right; by left|].
    destruct Hx; [by left|]. right. by right.
Qed.

Lemma re_sub_elem_of r repl s x : x ∈ re_sub r repl s → x ∈ repl ∨ x ∈ s.
Proof. apply sub_from_elem_of. Qed.

(** A removal returns characters of the subject only. *)
Lemma re_sub_remove_elem_of r s x : x ∈ re_sub r [] s → x ∈ s.
Proof. intros [Hx|Hx]%re_sub_elem_of; [by apply elem_of_nil in Hx|done]. Qed.

(** A substitution whose replacement is no longer than the shortest
    match does not lengthen the subject. *)
Lemma sub_from_length fuel r repl prev s :
  length repl ≤ min_len r → length (sub_from fuel r repl prev s) ≤ length s.
Proof.
  intros Hrepl. revert prev s. induction fuel as [|fuel IH]; intros prev s; [done|].
  cbn [sub_from].
  destruct (match_here r prev s) as [[p' s']|] eqn:Hm.
  - apply match_here_consumes in Hm as (m & -> & Hlen).
    rewrite length_app. case_decide as Hlt.
    + rewrite length_app. specialize (IH p' s'). lia.
    + assert (repl = []) as -> by (destruct repl; [done|simpl in *; lia]).
      destruct (m ++ s') as [|c s''] eqn:Heq; simpl; [lia|].
      apply (f_equal length) in Heq. rewrite length_app in Heq. simpl in Heq.
      specialize (IH (Some c) s''). lia.
  - destruct s as [|c s'']; simpl; [lia|]. specialize (IH (Some c) s''). lia.
Qed.

Lemma re_sub_length r repl s :
  length repl ≤ min_len r → length (re_sub r repl s) ≤ length s.
Proof. apply sub_from_length. Qed.


Lemma remove_all_length patterns s : length (remove_all patterns s) ≤ length s.
Proof.
  unfold remove_all. revert s.
  induction patterns as [|r patterns IH]; intros s; simpl; [done|].
  etrans; [apply IH|]. apply re_sub_length. simpl. lia.
Qed.

(** Where a pattern is led by a class, the substitution leaves no
    character of that class but those of the replacement. *)
Lemma sub_from_led_by p r repl fuel prev s x :
  led_by p r → length s < fuel →
  x ∈ sub_from fuel r repl prev s → x ∈ repl ∨ (x ∈ s ∧ p x = false).
Proof.
  intros (Hnil & Hfail & Hok & Hmin). revert prev s.
  induction fuel as [|fuel IH]; intros prev s Hfuel; [lia|].
  cbn [sub_from]. destruct s as [|c s].
  { by rewrite Hnil; intros ?%elem_of_nil. }
  destruct (p c) eqn:Hc.
  - destruct (Hok prev c s Hc) as [[p' s'] Hm]. rewrite Hm.
    apply match_here_consumes in Hm as (m & Heq & Hlen).
    assert (length s' < length (c :: s)) as Hlt.
    { rewrite Heq, length_app. lia. }
    rewrite decide_True by done.
    intros [?|Hx%IH]%elem_of_app; [by left| |].
    + destruct Hx as [?|[Hx ?]]; [by left|]. right. split; [|done].
      rewrite Heq. apply elem_of_app. by right.
    + simpl in *. lia.
  - rewrite (Hfail prev c s Hc).
    intros [->|Hx%IH]%elem_of_cons; [right; split; [by left|done]| |].
    + destruct Hx as [?|[Hx ?]]; [by left|]. right. split; [by right|done].
    + simpl in *. lia.
Qed.

Lemma re_sub_led_by p r repl s x :
  led_by p r → x ∈ re_sub r repl s → x ∈ repl ∨ (x ∈ s ∧ p x = false).
Proof. intros Hled. apply sub_from_led_by; [done|lia]. Qed.

(** A bare class, and a class followed by a repetition, are led by the
    class. *)
Lemma led_by_class p : led_by p (Class p).
Proof.
  repeat split; try done.
  - intros prev c s Hc. unfold match_here. simpl. by rewrite Hc.
  - intros prev c s Hc. unfold match_here. simpl. by rewrite Hc.
Qed.

Lemma rmatch_star_some {A} r prev s (k : option ascii → text → option A) :
  (∀ prev' s', is_Some (k prev' s')) → is_Some (rmatch (Star r) prev s k).
Proof.
  intros Hk. cbn [rmatch]. generalize (length s) at 1. intros n.
  destruct n as [|n]; [apply Hk|].
  match goal with
  | |- context [rmatch r prev s ?k1] => destruct (rmatch r prev s k1)
  end; [done|apply Hk].
Qed.

Lemma led_by_class_star p r : led_by p (Seq (Class p) (Star r)).
Proof.
  repeat split; try done.
  - intros prev c s Hc. unfold match_here. cbn [rmatch]. by rewrite Hc.
  - intros prev c s Hc. unfold match_here.
    change (rmatch (Seq (Class p) (Star r)) prev (c :: s) (λ p' s', Some (p', s')))
      with (if p c then rmatch (Star r) (Some c) s (λ p' s', Some (p', s')) else None).
    rewrite Hc. by apply rmatch_star_some.
Qed.

(** Stripping removes characters only, and leaves no whitespace at
    either end. *)
Lemma lstrip_suffix s : ∃ m, s = m ++ lstrip s.
Proof.
  induction s as [|c s [m IH]]; [by exists []|]. simpl.
  destruct (is_space c); [|by exists []].
  exists (c :: m). simpl. by rewrite <- IH.
Qed.

Lemma lstrip_elem_of s x : x ∈ lstrip s → x ∈ s.
Proof.
  destruct (lstrip_suffix s) as [m Hm]. intros Hx. rewrite Hm.
  apply elem_of_app. by right.
Qed.

Lemma lstrip_length s : length (lstrip s) ≤ length s.
Proof.
  destruct (lstrip_suffix s) as [m Hm].
  rewrite Hm at 2. rewrite length_app. lia.
Qed.

Lemma strip_elem_of s x : x ∈ strip s → x ∈ s.
Proof.
  unfold strip, rstrip. rewrite elem_of_reverse.
  intros Hx%lstrip_elem_of. rewrite elem_of_reverse in Hx.
  by apply lstrip_elem_of.
Qed.

Lemma strip_length s : length (strip s) ≤ length s.
Proof.
  unfold strip, rstrip. rewrite length_reverse.
  etrans; [apply lstrip_length|]. rewrite length_reverse. apply lstrip_length.
Qed.

(* ===================================================================== *)
(** ** Where the formatter cuts                                          *)
(* ===================================================================== *)

Lemma elem_of_text_dec (c : ascii) (s : text) : bool_decide (c ∈ s) = true → c ∈ s.
Proof. apply bool_decide_eq_true. Qed.

(** [rsplit_head] splits at the last separator: nothing after the cut
    holds the separator. *)
Lemma rsplit_head_split sep s :
  sep ∈ s → ∃ rest, s = rsplit_head sep s ++ sep :: rest ∧ sep ∉ rest.
Proof.
  induction s as [|c s IH]; [by intros ?%elem_of_nil|].
  intros Hin. simpl. case_decide as Hs.
  - destruct (IH Hs) as (rest & Heq & Hrest). exists rest.
    split; [|done]. simpl. by rewrite <- Heq.
  - apply elem_of_cons in Hin as [<-|?]; [|done].
    rewrite decide_True by done. by exists s.
Qed.

Lemma rsplit_head_prefix sep s : rsplit_head sep s `prefix_of` s.
Proof.
  destruct (decide (sep ∈ s)) as [Hin|Hnin].
  - destruct (rsplit_head_split sep s Hin) as (rest & Heq & _).
    by exists (sep :: rest).
  - by rewrite rsplit_head_absent.
Qed.

Lemma apply_length_constraints_shape content :
  apply_length_constraints content `prefix_of` content ∨
  (280 < length content ∧
   apply_length_constraints content = take 277 content ++ txt "...").
Proof.
  unfold apply_length_constraints. repeat case_decide.
  - left. apply prefix_nil.
  - left. destruct (rsplit_head_split "." (take 277 content)) as (rest & Heq & _);
      [done|].
    exists (rest ++ drop 277 content).
    rewrite <- (take_drop 277 content) at 1. rewrite Heq at 1.
    by rewrite <- !(assoc (++)).
  - left. etrans; [apply rsplit_head_prefix|]. apply prefix_take.
  - by right.
  - by left.
Qed.

(** X1: the formatter invents no text: its result is a prefix of the
    content, except on the hard cut, where it is the first 277
    characters followed by three full stops. *)
Theorem apply_length_constraints_prefix (content : text) :
  apply_length_constraints content `prefix_of` content ∨
  (280 < length content ∧
   apply_length_constraints content = take 277 content ++ txt "...").
Proof. apply apply_length_constraints_shape. Qed.

(** X2: a text of more than 280 characters is cut at the last boundary
    inside its first 277 characters: right after the last full stop when
    there is one, and otherwise right before the last comma when there
    is one. *)
Theorem apply_length_constraints_last_boundary (content : text) :
  280 < length content →
  ("." ∈ take 277 content →
   ∃ head rest, apply_length_constraints content = head ++ ["."] ∧
                take 277 content = head ++ "." :: rest ∧ "." ∉ rest) ∧
  ("." ∉ take 277 content → "," ∈ take 277 content →
   ∃ rest, take 277 content = apply_length_constraints content ++ "," :: rest ∧
           "," ∉ rest).
Proof.
  intros Hlen. unfold apply_length_constraints.
  rewrite decide_False by lia. rewrite decide_True by done. cbv zeta.
  split.
  - intros Hdot. rewrite decide_True by done.
    destruct (rsplit_head_split "." (take 277 content) Hdot) as (rest & Heq & Hrest).
    by exists (rsplit_head "." (take 277 content)), rest.
  - intros Hdot Hcomma. rewrite decide_False by done. rewrite decide_True by done.
    apply (rsplit_head_split "," (take 277 content) Hcomma).
Qed.

Lemma apply_length_constraints_last_boundary_witness :
  ∃ head rest,
    apply_length_constraints (txt "One. Two, three" ++ replicate 300 "a")
      = head ++ ["."] ∧
    take 277 (txt "One. Two, three" ++ replicate 300 "a") = head ++ "." :: rest ∧
    "." ∉ rest.
Proof.
  apply (apply_length_constraints_last_boundary
           (txt "One. Two, three" ++ replicate 300 "a")).
  - vm_compute. lia.
  - apply elem_of_text_dec. by vm_compute.
Defined.

Lemma apply_length_constraints_elem_of content x :
  x ∈ apply_length_constraints content → x ∈ content ∨ x = ".".
Proof.
  destruct (apply_length_constraints_shape content) as [[k Hk]|[_ ->]].
  - intros Hx. left. rewrite Hk. apply elem_of_app. by left.
  - intros [Hx|Hx]%elem_of_app.
    + left. rewrite <- (take_drop 277 content). apply elem_of_app. by left.
    + right. by repeat (apply elem_of_cons in Hx as [->|Hx]; [done|]);
        apply elem_of_nil in Hx.
Qed.

(* ===================================================================== *)
(** ** What the cleaners leave                                           *)
(* ===================================================================== *)

Lemma remove_all_snoc patterns r s :
  remove_all (patterns ++ [r]) s = re_sub r [] (remove_all patterns s).
Proof. unfold remove_all. by rewrite foldl_app. Qed.

(** Membership in a literal text. *)
Ltac in_literal H :=
  repeat (apply elem_of_cons in H as [->|H]);
  try (apply elem_of_nil in H; destruct H).

(** A character that is not in a literal text. *)
Ltac not_in_literal H :=
  repeat (apply elem_of_cons in H as [?|H]; [done|]);
  by apply elem_of_nil in H.

Lemma clean_edge_for_output_chars rt content x :
  x ∈ clean_edge_for_output rt content →
  x ≠ ">" ∧ (is_space x = true → x = " ").
Proof.
  unfold clean_edge_for_output. destruct content as [|c content].
  { by intros ?%elem_of_nil. }
  intros Hx%re_sub_remove_elem_of%re_sub_remove_elem_of%strip_elem_of.
  apply (re_sub_led_by is_space) in Hx; [|apply led_by_class_star].
  destruct Hx as [Hx|[Hx Hsp]].
  { in_literal Hx. by split. }
  split; [|by rewrite Hsp].
  rewrite (app_removelast_last (l := board_patterns) Eps) in Hx by done.
  rewrite remove_all_snoc in Hx.
  change (List.last board_patterns Eps)
    with (Seq (Class (Ascii.eqb ">")) (Star (Lit ">"))) in Hx.
  apply (re_sub_led_by (Ascii.eqb ">")) in Hx; [|apply led_by_class_star].
  destruct Hx as [Hx|[_ Hgt]]; [by apply elem_of_nil in Hx|].
  intros ->. by rewrite Ascii.eqb_refl in Hgt.
Qed.

(** X3: whatever [html.unescape] returns, the text
    [clean_edge_for_output] gives back holds no [>], and its only
    whitespace character is the plain space. *)
Theorem clean_edge_for_output_characters (rt : Runtime) (content : text) (x : ascii) :
  x ∈ clean_edge_for_output rt content →
  x ≠ ">" ∧ (is_space x = true → x = " ").
Proof. apply clean_edge_for_output_chars. Qed.

Lemma clean_edge_for_output_characters_witness :
  "a" ≠ ">" ∧ (is_space "a" = true → "a" = " ").
Proof.
  apply (clean_edge_for_output_characters example_runtime (txt ">be a") "a").
  apply elem_of_text_dec. by vm_compute.
Defined.

(** X4: [clean_edge_for_output] only removes and collapses: its result
    is never longer than what [html.unescape] made of the content. *)
Theorem clean_edge_for_output_length (rt : Runtime) (content : text) :
  length (clean_edge_for_output rt content) ≤ length (unescape rt content).
Proof.
  unfold clean_edge_for_output. destruct content as [|c content]; [simpl; lia|].
  do 2 (etrans; [apply re_sub_length; simpl; lia|]).
  etrans; [apply strip_length|].
  etrans; [apply re_sub_length; simpl; lia|].
  etrans; [apply remove_all_length|].
  do 2 (etrans; [apply re_sub_length; simpl; lia|]).
  done.
Qed.

(** X5: the text [_clean_content] gives back holds neither [<] nor [>],
    and its only whitespace character is the plain space. *)
Theorem _clean_content_characters (content : text) (x : ascii) :
  x ∈ _clean_content content →
  x ≠ "<" ∧ x ≠ ">" ∧ (is_space x = true → x = " ").
Proof.
  unfold _clean_content, replace. cbv zeta.
  intros Hx%strip_elem_of.
  apply (re_sub_led_by is_space) in Hx; [|apply led_by_class_star].
  destruct Hx as [Hx|[Hx Hsp]].
  { in_literal Hx. by repeat split. }
  do 13 (apply re_sub_elem_of in Hx as [Hx|Hx];
         [in_literal Hx; by repeat split|]).
  change (Str ">") with (Class (Ascii.eqb ">")) in Hx.
  apply (re_sub_led_by (Ascii.eqb ">")) in Hx; [|apply led_by_class].
  destruct Hx as [Hx|[Hx Hgt]]; [by apply elem_of_nil in Hx|].
  do 6 (apply re_sub_elem_of in Hx as [Hx|Hx];
        [in_literal Hx; by repeat split|]).
  apply (re_sub_led_by (Ascii.eqb "<")) in Hx; [|apply led_by_class_star].
  destruct Hx as [Hx|[_ Hlt]]; [by apply elem_of_nil in Hx|].
  repeat split.
  - intros ->. by rewrite Ascii.eqb_refl in Hlt.
  - intros ->. by rewrite Ascii.eqb_refl in Hgt.
  - by rewrite Hsp.
Qed.

Lemma _clean_content_characters_witness :
  "a" ≠ "<" ∧ "a" ≠ ">" ∧ (is_space "a" = true → "a" = " ").
Proof.
  apply (_clean_content_characters (txt "<b>be a") "a").
  apply elem_of_text_dec. by vm_compute.
Defined.

(** X6: [_clean_content] never lengthens a text: every rule removes, or
    puts a replacement no longer than the shortest match. *)
Theorem _clean_content_length (content : text) :
  length (_clean_content content) ≤ length content.
Proof.
  unfold _clean_content, replace. cbv zeta.
  etrans; [apply strip_length|].
  do 23 (etrans; [apply re_sub_length; vm_compute; lia|]).
  done.
Qed.

(* ===================================================================== *)
(** ** A second pass of the cleaners                                     *)
(* ===================================================================== *)











































































(* ===================================================================== *)
(** ** The simple generator                                              *)
(* ===================================================================== *)

Lemma split_from_elem_of word s part x :
  part ∈ split_from word s → x ∈ part → x ∈ word ∨ x ∈ s.
Proof.
  revert word. induction s as [|c s IH]; intros word; cbn [split_from].
  - destruct word as [|w word]; [by intros ?%elem_of_nil|].
    intros ->%list_elem_of_singleton Hx. rewrite elem_of_reverse in Hx. by left.
  - destruct (is_space c).
    + destruct word as [|w word].
      * intros Hp Hx. destruct (IH [] Hp Hx) as [?%elem_of_nil|?]; [done|].
        right. by right.
      * intros [->|Hp]%elem_of_cons Hx.
        -- left. by rewrite elem_of_reverse in Hx.
        -- destruct (IH [] Hp Hx) as [?%elem_of_nil|?]; [done|]. right. by right.
    + intros Hp Hx. destruct (IH (c :: word) Hp Hx) as [[->|?]%elem_of_cons|?].
      * right. by left.
      * by left.
      * right. by right.
Qed.

Lemma join_elem_of sep parts x :
  x ∈ join sep parts → x ∈ sep ∨ ∃ part, part ∈ parts ∧ x ∈ part.
Proof.
  induction parts as [|p parts IH]; simpl; [by intros ?%elem_of_nil|].
  destruct parts as [|q parts].
  - intros Hx. right. exists p. split; [by left|done].
  - intros [Hx|[Hx|Hx]%elem_of_app]%elem_of_app.
    + right. exists p. split; [by left|done].
    + by left.
    + destruct (IH Hx) as [?|(part & Hp & ?)]; [by left|].
      right. exists part. split; [by right|done].
Qed.

Lemma clean_content_for_output_spec content :
  length (clean_content_for_output content) ≤ 200 ∧
  ">" ∉ clean_content_for_output content.
Proof.
  unfold clean_content_for_output, replace.
  destruct content as [|c content].
  { split; [simpl; lia|by intros ?%elem_of_nil]. }
  cbv zeta. split.
  - etrans; [apply strip_length|]. case_decide; [|lia].
    rewrite length_app, length_take. change (length (txt "...")) with 3. lia.
  - intros Hx%strip_elem_of.
    assert (">" ∈ join (txt " ")
              (split (re_sub trailing_number []
                (re_sub leading_number []
                  (re_sub standalone_number []
                    (re_sub long_number []
                      (strip (re_sub (Str ">") [] (c :: content))))))))) as Hj.
    { case_decide; [|done].
      apply elem_of_app in Hx as [Hx|Hx]; [|not_in_literal Hx].
      rewrite <- (take_drop 197 (join _ _)). apply elem_of_app. by left. }
    clear Hx. apply join_elem_of in Hj as [Hj|(part & Hp & Hj)]; [not_in_literal Hj|].
    destruct (split_from_elem_of _ _ _ _ Hp Hj) as [?%elem_of_nil|Hs]; [done|].
    do 4 apply re_sub_remove_elem_of in Hs. apply strip_elem_of in Hs.
    change (Str ">") with (Class (Ascii.eqb ">")) in Hs.
    apply (re_sub_led_by (Ascii.eqb ">")) in Hs; [|apply led_by_class].
    destruct Hs as [?%elem_of_nil|[_ Hgt]]; [done|].
    by rewrite Ascii.eqb_refl in Hgt.
Qed.

(** X7: the text [clean_content_for_output] gives back has at most 200
    characters and holds no [>]. *)
Theorem clean_content_for_output_bound (content : text) :
  length (clean_content_for_output content) ≤ 200 ∧
  ">" ∉ clean_content_for_output content.
Proof. apply clean_content_for_output_spec. Qed.

(** What [generate_tweet] returns: the fixed string, or the cleaned
    content of a row of one of the four pools. *)
Lemma generate_tweet_source rt g cur :
  (generate_tweet rt g cur).1.1 = txt "Content pool exhausted" ∨
  ∃ row, row ∈ pool_rows g ∧
         (generate_tweet rt g cur).1.1
           = clean_content_for_output (cleaned_content row).
Proof.
  unfold generate_tweet, pool_rows.
  assert (∀ pool c,
            (∀ row, row ∈ pool →
                    row ∈ short_pool g ++ medium_pool g ++
                          priority_short_pool g ++ priority_medium_pool g) →
            (match sample rt pool c with
             | Some selected_row =>
                 (clean_content_for_output (cleaned_content selected_row), g, S c)
             | None => (txt "Content pool exhausted", g, c)
             end).1.1 = txt "Content pool exhausted" ∨
            ∃ row, row ∈ short_pool g ++ medium_pool g ++
                         priority_short_pool g ++ priority_medium_pool g ∧
                   (match sample rt pool c with
                    | Some selected_row =>
                        (clean_content_for_output (cleaned_content selected_row),
                         g, S c)
                    | None => (txt "Content pool exhausted", g, c)
                    end).1.1 = clean_content_for_output (cleaned_content row))
    as Hpool.
  { intros pool c Hsub. destruct (sample rt pool c) as [row|] eqn:Hs; [|by left].
    right. exists row. split; [|done]. apply Hsub.
    unfold sample in Hs. by eapply list_elem_of_lookup_2. }
  assert (∀ row, row ∈ short_pool g → row ∈ short_pool g ++ medium_pool g ++
            priority_short_pool g ++ priority_medium_pool g) as Hshort.
  { intros row ?. apply elem_of_app. by left. }
  assert (∀ row, row ∈ medium_pool g → row ∈ short_pool g ++ medium_pool g ++
            priority_short_pool g ++ priority_medium_pool g) as Hmedium.
  { intros row ?. apply elem_of_app. right. apply elem_of_app. by left. }
  assert (∀ row, row ∈ priority_short_pool g → row ∈ short_pool g ++ medium_pool g ++
            priority_short_pool g ++ priority_medium_pool g) as Hps.
  { intros row ?. do 2 (apply elem_of_app; right). apply elem_of_app. by left. }
  assert (∀ row, row ∈ priority_medium_pool g → row ∈ short_pool g ++ medium_pool g ++
            priority_short_pool g ++ priority_medium_pool g) as Hpm.
  { intros row ?. do 3 (apply elem_of_app; right). done. }
  destruct (Qltb (random rt cur) f0_7);
    destruct (priority_short_pool g) as [|? ?] eqn:E1;
    destruct (priority_medium_pool g) as [|? ?] eqn:E2;
    destruct (short_pool g) as [|? ?] eqn:E3;
    destruct (medium_pool g) as [|? ?] eqn:E4;
    try (by left);
    try (apply Hpool; first [exact Hshort|exact Hmedium|exact Hps|exact Hpm]).
  all: destruct (List.filter _ _) as [|? ?] eqn:Hf; [by left|];
    apply Hpool; intros row Hrow; apply Hmedium;
    rewrite <- Hf in Hrow; by eapply filter_elem_of.
Qed.

Lemma generate_tweet_unchanged rt g cur : (generate_tweet rt g cur).1.2 = g.
Proof.
  unfold generate_tweet.
  repeat match goal with
         | |- context [match ?x with _ => _ end] => destruct x
         | |- context [if ?x then _ else _] => destruct x
         end; reflexivity.
Qed.

Lemma generate_tweet_text rt g cur :
  length (generate_tweet rt g cur).1.1 ≤ 200 ∧ ">" ∉ (generate_tweet rt g cur).1.1.
Proof.
  destruct (generate_tweet_source rt g cur) as [->|(row & _ & ->)].
  - split; [vm_compute; lia|]. intros Hx. not_in_literal Hx.
  - apply clean_content_for_output_spec.
Qed.

(** X8: on a generator whose dataset was read, [generate_tweet] returns
    the fixed string "Content pool exhausted" or the cleaned content of
    a row of one of the four pools, a text of at most 200 characters
    without [>], and leaves the generator as it was; with all pools
    empty it is the fixed string.  On a generator whose dataset was
    missing or unreadable the call raises [AttributeError] when the
    draw is below 0.7 and returns the fixed string when it is not. *)
Theorem generate_tweet_output (rt : Runtime) (self : SimpleEnhancedEdgeGenerator)
    (cur : nat) :
  (∀ g, self = Loaded g →
     ∃ tweet cur',
       generate_tweet_on rt self cur = Returns (tweet, self, cur') ∧
       (tweet = txt "Content pool exhausted" ∨
        ∃ row, row ∈ pool_rows g ∧
               tweet = clean_content_for_output (cleaned_content row)) ∧
       length tweet ≤ 200 ∧ (">" ∉ tweet) ∧
       (pool_rows g = [] → tweet = txt "Content pool exhausted" ∧ cur' = S cur)) ∧
  (∀ outputs, self = NotLoaded outputs →
     ((random rt cur < f0_7)%Q →
      generate_tweet_on rt self cur = Raises AttributeError) ∧
     ((f0_7 <= random rt cur)%Q →
      generate_tweet_on rt self cur
        = Returns (txt "Content pool exhausted", self, S cur))).
Proof.
  split.
  - intros g ->. cbn [generate_tweet_on].
    pose proof (generate_tweet_source rt g cur) as Hsrc.
    pose proof (generate_tweet_text rt g cur) as [Hlen Hgt].
    pose proof (generate_tweet_unchanged rt g cur) as Hg.
    assert (pool_rows g = [] →
            generate_tweet rt g cur = (txt "Content pool exhausted", g, S cur))
      as Hempty.
    { unfold pool_rows, generate_tweet.
      intros (-> & (-> & (-> & ->)%app_eq_nil)%app_eq_nil)%app_eq_nil.
      by destruct (Qltb _ _). }
    destruct (generate_tweet rt g cur) as [[tweet g'] cur']. cbn [fst snd] in *.
    subst g'. exists tweet, cur'.
    split; [done|]. split; [done|]. split; [done|]. split; [done|].
    intros Hnil. specialize (Hempty Hnil). by simplify_eq.
  - intros outputs ->. cbn [generate_tweet_on]. split.
    + intros Hlt%Qltb_true. by rewrite Hlt.
    + intros Hle%Qltb_false. by rewrite Hle.
Qed.

Lemma generate_tweet_output_witness :
  generate_tweet_on example_runtime (NotLoaded ∅) 0 = Raises AttributeError.
Proof.
  apply (proj1 (proj2 (generate_tweet_output example_runtime (NotLoaded ∅) 0)
                  ∅ eq_refl)).
  by vm_compute.
Defined.

(** The loop on a generator without its dataset: it goes on while the
    draws are 0.7 or more. *)
Lemma generate_multiple_tweets_not_loaded rt outputs count cur :
  ((∀ i, i < count → (f0_7 <= random rt (cur + i))%Q) →
   generate_multiple_tweets rt (NotLoaded outputs) count cur
     = Returns (replicate count (txt "Content pool exhausted"),
                NotLoaded outputs, cur + count)) ∧
  ((∃ i, i < count ∧ (random rt (cur + i) < f0_7)%Q) →
   generate_multiple_tweets rt (NotLoaded outputs) count cur
     = Raises AttributeError).
Proof.
  revert cur. induction count as [|count IH]; intros cur.
  { split.
    - intros _. cbn. by rewrite Nat.add_0_r.
    - intros (i & Hi & _). lia. }
  cbn [generate_multiple_tweets generate_tweet_on].
  destruct (Qltb (random rt cur) f0_7) eqn:Hdraw.
  - split; [|done]. intros Hall. exfalso.
    apply Qltb_true in Hdraw. specialize (Hall 0 ltac:(lia)).
    rewrite Nat.add_0_r in Hall. by apply (Qlt_not_le _ _ Hdraw).
  - destruct (IH (S cur)) as [IHr IHe]. split.
    + intros Hall. rewrite IHr.
      * by replace (cur + S count) with (S cur + count) by lia.
      * intros i Hi. replace (S cur + i) with (cur + S i) by lia. apply Hall. lia.
    + intros (i & Hi & Hlt). rewrite IHe; [done|].
      destruct i as [|i].
      * exfalso. rewrite Nat.add_0_r in Hlt. apply Qltb_false in Hdraw.
        by apply (Qlt_not_le _ _ Hlt).
      * exists i. split; [lia|]. by replace (S cur + i) with (cur + S i) by lia.
Qed.

(** X9: on a generator whose dataset was read,
    [generate_multiple_tweets] returns exactly [count] texts, each of at
    most 200 characters and without [>], and leaves the generator as it
    was.  On a generator whose dataset was missing or unreadable it
    returns [count] times the fixed string when each of its [count]
    draws is 0.7 or more, and raises [AttributeError] when one of them
    is below 0.7. *)
Theorem generate_multiple_tweets_count (rt : Runtime)
    (self : SimpleEnhancedEdgeGenerator) (count cur : nat) :
  (∀ g, self = Loaded g →
     ∃ tweets cur',
       generate_multiple_tweets rt self count cur = Returns (tweets, self, cur') ∧
       length tweets = count ∧
       ∀ tweet, tweet ∈ tweets → length tweet ≤ 200 ∧ ">" ∉ tweet) ∧
  (∀ outputs, self = NotLoaded outputs →
     ((∀ i, i < count → (f0_7 <= random rt (cur + i))%Q) →
      generate_multiple_tweets rt self count cur
        = Returns (replicate count (txt "Content pool exhausted"),
                   self, cur + count)) ∧
     ((∃ i, i < count ∧ (random rt (cur + i) < f0_7)%Q) →
      generate_multiple_tweets rt self count cur = Raises AttributeError)).
Proof.
  split.
  - intros g ->. revert cur. induction count as [|count IH]; intros cur.
    { exists [], cur. split; [done|split; [done|]]. by intros tweet ?%elem_of_nil. }
    cbn [generate_multiple_tweets generate_tweet_on].
    pose proof (generate_tweet_text rt g cur) as Htext.
    pose proof (generate_tweet_unchanged rt g cur) as Hg.
    destruct (generate_tweet rt g cur) as [[tweet g'] cur1]. cbn [fst snd] in *.
    subst g'. destruct (IH cur1) as (tweets & cur' & -> & Hlen & Hall).
    exists (tweet :: tweets), cur'. split; [done|]. split; [simpl; by rewrite Hlen|].
    intros t [->|Hin]%elem_of_cons; [done|by apply Hall].
  - intros outputs ->. apply generate_multiple_tweets_not_loaded.
Qed.

Lemma generate_multiple_tweets_count_witness :
  generate_multiple_tweets example_runtime (NotLoaded ∅) 3 0 = Raises AttributeError.
Proof.
  apply (proj2 (proj2 (generate_multiple_tweets_count example_runtime
                         (NotLoaded ∅) 3 0) ∅ eq_refl)).
  exists 0. split; [lia|]. by vm_compute.
Defined.

(* ===================================================================== *)
(** ** The pools                                                         *)
(* ===================================================================== *)

Lemma add_category_pools_lookup has_category df0 pools category key :
  add_category_pools has_category df0 pools category !! key =
    match type_content_of has_category df0 category with
    | [] => pools !! key
    | _ =>
        if decide (category +:+ "_good" = key)
        then Some (List.filter (quality_at_least 5)
                     (type_content_of has_category df0 category))
        else if decide (category +:+ "_medium" = key)
        then Some (List.filter (λ r, quality_at_least 6 r && quality_below 8 r)
                     (type_content_of has_category df0 category))
        else if decide (category +:+ "_high" = key)
        then Some (List.filter (quality_at_least 8)
                     (type_content_of has_category df0 category))
        else pools !! key
    end.
Proof.
  unfold add_category_pools, type_content_of. cbv zeta.
  destruct (if has_category then _ else _) as [|r0 type_content]; [done|].
  by rewrite !lookup_insert.
Qed.

(** The pool of a category and tier: absent when the category takes no
    row of the store, and otherwise the rows it takes that pass the
    test of the tier, be there any or not. *)
Lemma organize_content_pools_tier has_category df0 category :
  category ∈ categories →
  match type_content_of has_category df0 category with
  | [] =>
      organize_content_pools has_category df0 !! (category +:+ "_high") = None ∧
      organize_content_pools has_category df0 !! (category +:+ "_medium") = None ∧
      organize_content_pools has_category df0 !! (category +:+ "_good") = None
  | _ =>
      organize_content_pools has_category df0 !! (category +:+ "_high")
        = Some (List.filter (quality_at_least 8)
                  (type_content_of has_category df0 category)) ∧
      organize_content_pools has_category df0 !! (category +:+ "_medium")
        = Some (List.filter (λ r, quality_at_least 6 r && quality_below 8 r)
                  (type_content_of has_category df0 category)) ∧
      organize_content_pools has_category df0 !! (category +:+ "_good")
        = Some (List.filter (quality_at_least 5)
                  (type_content_of has_category df0 category))
  end.
Proof.
  intros Hcat. unfold organize_content_pools.
  destruct df0 as [|r0 df0].
  { rewrite !lookup_empty. by destruct has_category. }
  generalize (r0 :: df0). clear r0 df0. intros store.
  unfold categories in *. cbn [foldl].
  rewrite !add_category_pools_lookup, !lookup_empty.
  repeat (apply elem_of_cons in Hcat as [->|Hcat]);
    [| | | |by apply elem_of_nil in Hcat];
    destruct (type_content_of has_category store "sexual_edge");
    destruct (type_content_of has_category store "political_edge");
    destruct (type_content_of has_category store "dark_humor_edge");
    destruct (type_content_of has_category store "general_edge");
    done.
Qed.

Lemma type_content_of_elem_of has_category df0 category row :
  row ∈ type_content_of has_category df0 category ↔
  row ∈ df0 ∧ (has_category = true → row_category row = category).
Proof.
  unfold type_content_of. destruct has_category.
  - rewrite !list_elem_of_In, filter_In, String.eqb_eq. tauto.
  - split; [by intros ?|by intros [? _]].
Qed.

Lemma type_content_of_nil has_category df0 category :
  type_content_of has_category df0 category = [] ↔
  ¬ ∃ row, row ∈ df0 ∧ (has_category = true → row_category row = category).
Proof.
  split.
  - intros Hnil (row & Hrow). apply type_content_of_elem_of in Hrow.
    rewrite Hnil in Hrow. by apply elem_of_nil in Hrow.
  - intros Hno.
    destruct (type_content_of has_category df0 category) as [|r l] eqn:Hty; [done|].
    exfalso. apply Hno. exists r. apply type_content_of_elem_of.
    rewrite Hty. by left.
Qed.

Lemma filter_elem_of_iff {A} (p : A → bool) (l : list A) (x : A) :
  x ∈ List.filter p l ↔ x ∈ l ∧ p x = true.
Proof. by rewrite !list_elem_of_In, filter_In. Qed.

Lemma quality_at_least_le k row :
  quality_at_least k row = true ↔ (k <= row_quality_score row)%Q.
Proof. apply Qle_bool_iff. Qed.

Lemma quality_below_lt k row :
  quality_below k row = true ↔ (row_quality_score row < k)%Q.
Proof.
  unfold quality_below. rewrite negb_true_iff.
  destruct (Qle_bool k (row_quality_score row)) eqn:Hle.
  - apply Qle_bool_iff in Hle. split; [done|]. intros Hlt.
    exfalso. by apply (Qlt_not_le _ _ Hlt).
  - split; [|done]. intros _. apply Qnot_le_lt. intros Hle'.
    apply Qle_bool_iff in Hle'. congruence.
Qed.

Lemma organize_content_pools_members has_category df0 category row :
  category ∈ categories →
  (∀ pool, organize_content_pools has_category df0 !! (category +:+ "_high")
             = Some pool →
     (row ∈ pool ↔
      row ∈ df0 ∧ (has_category = true → row_category row = category) ∧
      (8 <= row_quality_score row)%Q)) ∧
  (∀ pool, organize_content_pools has_category df0 !! (category +:+ "_medium")
             = Some pool →
     (row ∈ pool ↔
      row ∈ df0 ∧ (has_category = true → row_category row = category) ∧
      (6 <= row_quality_score row)%Q ∧ (row_quality_score row < 8)%Q)) ∧
  (∀ pool, organize_content_pools has_category df0 !! (category +:+ "_good")
             = Some pool →
     (row ∈ pool ↔
      row ∈ df0 ∧ (has_category = true → row_category row = category) ∧
      (5 <= row_quality_score row)%Q)).
Proof.
  intros Hcat.
  pose proof (organize_content_pools_tier has_category df0 category Hcat) as Htier.
  destruct (type_content_of has_category df0 category) as [|r0 rows] eqn:Hty.
  { destruct Htier as (-> & -> & ->). by repeat split. }
  rewrite <- Hty in Htier. clear Hty. destruct Htier as (-> & -> & ->).
  split; [|split]; intros pool [= <-];
    rewrite filter_elem_of_iff, type_content_of_elem_of.
  - rewrite quality_at_least_le. tauto.
  - rewrite andb_true_iff, quality_at_least_le, quality_below_lt. tauto.
  - rewrite quality_at_least_le. tauto.
Qed.

(** X10: the pools of a category hold exactly the rows the category
    takes whose quality score is at least 8 (high), at least 6 and
    below 8 (medium), at least 5 (good).  In a frame with the column
    [category] a category takes the rows of the store that carry it; in
    a frame without that column it takes every row of the store. *)
Theorem organize_content_pools_quality (has_category : bool) (df0 : list Row)
    (category : string) (row : Row) :
  category ∈ categories →
  (∀ pool, organize_content_pools has_category df0 !! (category +:+ "_high")
             = Some pool →
     (row ∈ pool ↔
      row ∈ df0 ∧ (has_category = true → row_category row = category) ∧
      (8 <= row_quality_score row)%Q)) ∧
  (∀ pool, organize_content_pools has_category df0 !! (category +:+ "_medium")
             = Some pool →
     (row ∈ pool ↔
      row ∈ df0 ∧ (has_category = true → row_category row = category) ∧
      (6 <= row_quality_score row)%Q ∧ (row_quality_score row < 8)%Q)) ∧
  (∀ pool, organize_content_pools has_category df0 !! (category +:+ "_good")
             = Some pool →
     (row ∈ pool ↔
      row ∈ df0 ∧ (has_category = true → row_category row = category) ∧
      (5 <= row_quality_score row)%Q)).
Proof. apply organize_content_pools_members. Qed.

Lemma organize_content_pools_quality_witness :
  ("sexual_edge" : string) ∈ categories ∧
  ∀ pool, organize_content_pools false [kek_row] !! ("sexual_edge" +:+ "_high")
            = Some pool →
    (kek_row ∈ pool ↔
     kek_row ∈ [kek_row] ∧
     (false = true → row_category kek_row = ("sexual_edge" : string)) ∧
     (8 <= row_quality_score kek_row)%Q).
Proof.
  assert (("sexual_edge" : string) ∈ categories) as Hcat.
  { unfold categories. by repeat constructor. }
  split; [exact Hcat|].
  exact (proj1 (organize_content_pools_quality false [kek_row] "sexual_edge"
                  kek_row Hcat)).
Defined.

Lemma organize_content_pools_is_Some has_category df0 category tier :
  category ∈ categories →
  tier ∈ ["_high" : string; "_medium" : string; "_good" : string] →
  is_Some (organize_content_pools has_category df0 !! (category +:+ tier)) ↔
  ∃ row, row ∈ df0 ∧ (has_category = true → row_category row = category).
Proof.
  intros Hcat Htier.
  pose proof (organize_content_pools_tier has_category df0 category Hcat) as Hpools.
  pose proof (type_content_of_nil has_category df0 category) as Hnil.
  destruct (type_content_of has_category df0 category) as [|r0 rows] eqn:Hty.
  - destruct Hpools as (Hh & Hm & Hg).
    assert (organize_content_pools has_category df0 !! (category +:+ tier) = None)
      as ->.
    { repeat (apply elem_of_cons in Htier as [->|Htier]; [done|]).
      by apply elem_of_nil in Htier. }
    split; [by intros [? ?]|]. intros Hrow. exfalso. by apply Hnil.
  - destruct Hpools as (Hh & Hm & Hg). split.
    + intros _. exists r0. apply type_content_of_elem_of. rewrite Hty. by left.
    + intros _.
      repeat (apply elem_of_cons in Htier as [->|Htier]; [by eexists|]).
      by apply elem_of_nil in Htier.
Qed.

(** X11: a category of the list has its three pools, or none of them:
    each key is present exactly when the category takes a row of the
    store, also when no row passes the test of the tier and the pool is
    empty.  In a frame with the column [category] that is when the
    store has a row of the category; in a frame without it, when the
    store has a row at all, so that all twelve keys are present
    together. *)
Theorem organize_content_pools_keys (has_category : bool) (df0 : list Row)
    (category tier : string) :
  category ∈ categories →
  tier ∈ ["_high" : string; "_medium" : string; "_good" : string] →
  is_Some (organize_content_pools has_category df0 !! (category +:+ tier)) ↔
  ∃ row, row ∈ df0 ∧ (has_category = true → row_category row = category).
Proof. apply organize_content_pools_is_Some. Qed.

Lemma organize_content_pools_keys_witness :
  is_Some (organize_content_pools false
             [{| row_content := txt "low"; row_category := "general_edge";
                 row_quality_score := 1%Q; row_board := "b" |}]
           !! ("sexual_edge" +:+ "_high")).
Proof.
  apply (organize_content_pools_keys false _ "sexual_edge" "_high").
  - unfold categories. by repeat constructor.
  - by repeat constructor.
  - eexists. split; [by left|done].
Defined.

(* ===================================================================== *)
(** ** The choice of a style                                             *)
(* ===================================================================== *)

Lemma any_pool_key_true style g :
  any_pool_key style g = true ↔
  ∃ key, is_Some (content_pools g !! key) ∧ contains style key = true.
Proof.
  unfold any_pool_key. rewrite existsb_exists. split.
  - intros (key & Hin & Hc). exists key. split; [|done].
    apply list_elem_of_In, elem_of_elements in Hin. by apply elem_of_dom.
  - intros (key & Hin & Hc). exists key. split; [|done].
    apply list_elem_of_In, elem_of_elements. by apply elem_of_dom.
Qed.

Lemma select_generation_style_spec rt g cur :
  (select_generation_style rt g cur).1 ∈ categories ∧
  ((∃ c, c ∈ categories ∧ any_pool_key c g = true) →
     any_pool_key (select_generation_style rt g cur).1 g = true ∧
     (select_generation_style rt g cur).2 = S cur) ∧
  ((∀ c, c ∈ categories → any_pool_key c g = false) →
     select_generation_style rt g cur = ("general_edge" : string, cur)).
Proof.
  unfold select_generation_style. cbv zeta.
  set (available_styles := _ ++ _).
  assert (∀ x, x ∈ available_styles → x ∈ categories ∧ any_pool_key x g = true)
    as Hav.
  { intros x Hx. subst available_styles. unfold categories.
    repeat (apply elem_of_app in Hx as [Hx|Hx]);
      match type of Hx with
      | _ ∈ (if ?b then _ else _) => destruct b eqn:Hb
      end;
      try (by apply elem_of_nil in Hx);
      apply elem_of_replicate in Hx as [-> _];
      (split; [by repeat constructor|done]). }
  assert ((∃ c, c ∈ categories ∧ any_pool_key c g = true) → available_styles ≠ [])
    as Hne.
  { intros (c & Hc & Hany). subst available_styles. unfold categories in Hc.
    repeat (apply elem_of_cons in Hc as [->|Hc]; [by rewrite Hany; destruct
      (any_pool_key "sexual_edge" g), (any_pool_key "political_edge" g),
      (any_pool_key "dark_humor_edge" g)|]).
    by apply elem_of_nil in Hc. }
  split; [|split].
  - destruct (sample rt available_styles cur) as [style|] eqn:Hs; simpl.
    + apply Hav. unfold sample in Hs. by eapply list_elem_of_lookup_2.
    + unfold categories. by repeat constructor.
  - intros Hex. destruct (sample_nonempty rt available_styles cur (Hne Hex))
      as (style & -> & Hin). simpl. split; [by apply Hav|done].
  - intros Hnone.
    destruct (sample rt available_styles cur) as [style|] eqn:Hs; [|done].
    exfalso. unfold sample in Hs. apply list_elem_of_lookup_2 in Hs.
    apply Hav in Hs as [Hc Hany]. rewrite (Hnone _ Hc) in Hany. done.
Qed.

(** X12: the style [select_generation_style] returns is one of the four
    categories.  When a key of the pools contains the name of a
    category, the style is one with such a key and one random draw is
    used; when no key does, the style is [general_edge] and nothing is
    drawn. *)
Theorem select_generation_style_available (rt : Runtime) (g : EdgeGenerator)
    (cur : nat) :
  (select_generation_style rt g cur).1 ∈ categories ∧
  ((∃ c, c ∈ categories ∧ any_pool_key c g = true) →
     any_pool_key (select_generation_style rt g cur).1 g = true ∧
     (select_generation_style rt g cur).2 = S cur) ∧
  ((∀ c, c ∈ categories → any_pool_key c g = false) →
     select_generation_style rt g cur = ("general_edge" : string, cur)).
Proof. apply select_generation_style_spec. Qed.

Lemma organize_content_pools_dom has_category df0 key :
  is_Some (organize_content_pools has_category df0 !! key) →
  ∃ category tier,
    category ∈ categories ∧
    tier ∈ ["_high" : string; "_medium" : string; "_good" : string] ∧
    key = category +:+ tier ∧
    ∃ row, row ∈ df0 ∧ (has_category = true → row_category row = category).
Proof.
  unfold organize_content_pools.
  destruct df0 as [|r0 df0].
  { rewrite lookup_empty. by intros [? ?]. }
  generalize (r0 :: df0). clear r0 df0. intros store.
  unfold categories. cbn [foldl].
  rewrite !add_category_pools_lookup, !lookup_empty.
  intros Hsome.
  repeat match type of Hsome with
  | is_Some (match type_content_of has_category store ?c with _ => _ end) =>
      let Hty := fresh "Hty" in
      destruct (type_content_of has_category store c) as [|? ?] eqn:Hty;
      [|assert (∃ row, row ∈ store ∧ (has_category = true → row_category row = c))
          by (eexists; apply type_content_of_elem_of; rewrite Hty; by left);
        repeat (let Hkey := fresh "Hkey" in
                case_decide as Hkey;
                [exists c; eexists; split; [by repeat constructor|];
                 split; [|split; [symmetry; exact Hkey|done]];
                 by repeat constructor|clear Hkey])]
  end;
  by destruct Hsome.
Qed.

Lemma contains_category category category' tier :
  category ∈ categories → category' ∈ categories →
  tier ∈ ["_high" : string; "_medium" : string; "_good" : string] →
  contains category (category' +:+ tier) = true ↔ category = category'.
Proof.
  unfold categories. intros Hc Hc' Ht.
  repeat (apply elem_of_cons in Hc as [->|Hc]);
    [| | | |by apply elem_of_nil in Hc];
    (repeat (apply elem_of_cons in Hc' as [->|Hc']);
      [| | | |by apply elem_of_nil in Hc']);
    (repeat (apply elem_of_cons in Ht as [->|Ht]);
      [| | |by apply elem_of_nil in Ht]);
    vm_compute; split; congruence.
Qed.

(** On a generator as [__init__] leaves it, a category has a key
    exactly when it takes a row of the store. *)
Lemma any_pool_key_load_generator has_category df0 category :
  category ∈ categories →
  any_pool_key category (load_generator has_category df0) = true ↔
  ∃ row, row ∈ df0 ∧ (has_category = true → row_category row = category).
Proof.
  intros Hcat. rewrite any_pool_key_true. cbn [load_generator content_pools]. split.
  - intros (key & Hkey & Hc).
    apply organize_content_pools_dom in Hkey
      as (category' & tier & Hcat' & Htier & -> & Hrow).
    apply contains_category in Hc; [|done..]. by subst.
  - intros Hrow. exists (category +:+ "_high"). split.
    + apply organize_content_pools_is_Some; [done|by repeat constructor|done].
    + apply contains_category; [done..|by repeat constructor|done].
Qed.

(** X13: on a generator as [__init__] leaves it, the style chosen is a
    category that takes a row of the store, whenever there is one, and
    a draw is used; when no category takes a row, the style is
    [general_edge] and nothing is drawn.  In a frame with the column
    [category] a category takes the rows that carry it; in a frame
    without that column every category takes every row, so that on a
    non-empty store all four styles can be drawn. *)
Theorem select_generation_style_new_generator (rt : Runtime)
    (has_category : bool) (df0 : list Row) (cur : nat) :
  ((∃ row, row ∈ df0 ∧ (has_category = true → row_category row ∈ categories)) →
   (∃ row, row ∈ df0 ∧
      (has_category = true →
       row_category row
         = (select_generation_style rt (load_generator has_category df0) cur).1)) ∧
   (select_generation_style rt (load_generator has_category df0) cur).2 = S cur) ∧
  ((∀ row, row ∈ df0 → has_category = true ∧ row_category row ∉ categories) →
   select_generation_style rt (load_generator has_category df0) cur
     = ("general_edge" : string, cur)) ∧
  (has_category = false → df0 ≠ [] →
   ∀ category, category ∈ categories →
     any_pool_key category (load_generator has_category df0) = true).
Proof.
  destruct (select_generation_style_spec rt (load_generator has_category df0) cur)
    as (Hcat & Hsome & Hnone).
  split; [|split].
  - intros (row & Hrow & Hc).
    destruct Hsome as [Hany Hcur].
    { destruct has_category.
      - exists (row_category row). split; [by apply Hc|].
        apply any_pool_key_load_generator; [by apply Hc|]. by exists row.
      - exists ("general_edge" : string).
        split; [unfold categories; by repeat constructor|].
        apply any_pool_key_load_generator;
          [unfold categories; by repeat constructor|]. by exists row. }
    split; [|done]. by apply any_pool_key_load_generator in Hany.
  - intros Hno. apply Hnone. intros c Hc.
    destruct (any_pool_key c (load_generator has_category df0)) eqn:Hany; [|done].
    apply any_pool_key_load_generator in Hany as (row & Hrow & Hrc); [|done].
    destruct (Hno row Hrow) as [Htrue Hnot]. by rewrite (Hrc Htrue) in Hnot.
  - intros -> Hne category Hc. apply any_pool_key_load_generator; [done|].
    destruct df0 as [|r0 df0]; [done|]. exists r0. split; [by left|done].
Qed.

Lemma select_generation_style_available_witness :
  select_generation_style example_runtime (new_generator []) 0
    = ("general_edge" : string, 0).
Proof.
  apply (select_generation_style_available example_runtime (new_generator []) 0).
  unfold categories. intros c Hc.
  by repeat (apply elem_of_cons in Hc as [->|Hc]; [done|]); apply elem_of_nil in Hc.
Defined.

Lemma select_generation_style_new_generator_witness :
  (∃ row, row ∈ [kek_row] ∧
     (false = true →
      row_category row
        = (select_generation_style example_runtime
             (load_generator false [kek_row]) 0).1)) ∧
  (select_generation_style example_runtime (load_generator false [kek_row]) 0).2 = 1.
Proof.
  apply (select_generation_style_new_generator example_runtime false [kek_row] 0).
  exists kek_row. split; [by left|done].
Defined.

(* ===================================================================== *)
(** ** Where a returned row comes from                                   *)
(* ===================================================================== *)

Lemma try_tiers_fresh rt g style tiers max_attempts cur row cur' :
  try_tiers rt g style tiers max_attempts cur = (Some row, cur') →
  ∃ quality pool,
    quality ∈ tiers ∧
    content_pools g !! (style +:+ "_" +:+ quality) = Some pool ∧
    row ∈ pool ∧ is_content_recent rt g (row_content row) = false.
Proof.
  revert cur. induction tiers as [|q tiers IH]; intros cur; simpl; [done|].
  destruct (content_pools g !! _) as [[|r0 pool]|] eqn:Hpool.
  - intros (q' & p & ? & ?)%IH. exists q', p. split; [by right|done].
  - destruct (sample_fresh rt g (r0 :: pool) max_attempts cur) as [[r|] c] eqn:Hs.
    + intros [= -> <-]. apply sample_fresh_Some in Hs as (Hin & Hrec & _).
      exists q, (r0 :: pool). split; [by left|done].
    + intros (q' & p & ? & ?)%IH. exists q', p. split; [by right|done].
  - intros (q' & p & ? & ?)%IH. exists q', p. split; [by right|done].
Qed.

Lemma get_fresh_edge_content_source rt g style quality_tier max_attempts cur row cur' :
  get_fresh_edge_content rt g (Some style) quality_tier max_attempts cur
    = (Some row, cur') →
  (∃ quality pool,
     quality ∈ match quality_tier with
               | None => ["high" : string; "medium" : string; "good" : string]
               | Some quality_tier => [quality_tier]
               end ∧
     content_pools g !! (style +:+ "_" +:+ quality) = Some pool ∧
     row ∈ pool ∧ is_content_recent rt g (row_content row) = false) ∨
  (∃ c, sample rt (df g) c = Some row ∧ cur' = S c ∧
        try_tiers rt g style
          match quality_tier with
          | None => ["high" : string; "medium" : string; "good" : string]
          | Some quality_tier => [quality_tier]
          end max_attempts cur = (None, c)).
Proof.
  unfold get_fresh_edge_content.
  destruct (try_tiers rt g style _ max_attempts cur) as [[r|] c] eqn:Ht.
  - intros [= -> <-]. left. by eapply try_tiers_fresh.
  - destruct (df g) as [|r0 rows] eqn:Hdf; [done|].
    intros [= Hs <-]. right. by exists c.
Qed.

(** X14: a row that [get_fresh_edge_content] returns for a style comes
    from a pool of that style and one of the tiers asked for and is not
    recent, or it is the fallback: a sample of the whole store, taken
    after every tier has failed. *)
Theorem get_fresh_edge_content_fresh (rt : Runtime) (g : EdgeGenerator)
    (style : string) (quality_tier : option string) (max_attempts cur : nat)
    (row : Row) (cur' : nat) :
  get_fresh_edge_content rt g (Some style) quality_tier max_attempts cur
    = (Some row, cur') →
  (∃ quality pool,
     quality ∈ match quality_tier with
               | None => ["high" : string; "medium" : string; "good" : string]
               | Some quality_tier => [quality_tier]
               end ∧
     content_pools g !! (style +:+ "_" +:+ quality) = Some pool ∧
     row ∈ pool ∧ is_content_recent rt g (row_content row) = false) ∨
  (∃ c, sample rt (df g) c = Some row ∧ cur' = S c ∧
        try_tiers rt g style
          match quality_tier with
          | None => ["high" : string; "medium" : string; "good" : string]
          | Some quality_tier => [quality_tier]
          end max_attempts cur = (None, c)).
Proof. apply get_fresh_edge_content_source. Qed.

Lemma get_fresh_edge_content_fresh_witness :
  get_fresh_edge_content example_runtime (new_generator [kek_row])
    (Some ("general_edge" : string)) None 20 0 = (Some kek_row, 1) ∧
  ((∃ quality pool,
      quality ∈ ["high" : string; "medium" : string; "good" : string] ∧
      content_pools (new_generator [kek_row]) !! ("general_edge" +:+ "_" +:+ quality)
        = Some pool ∧
      kek_row ∈ pool ∧
      is_content_recent example_runtime (new_generator [kek_row])
        (row_content kek_row) = false) ∨
   (∃ c, sample example_runtime (df (new_generator [kek_row])) c = Some kek_row ∧
         1 = S c ∧
         try_tiers example_runtime (new_generator [kek_row]) "general_edge"
           ["high" : string; "medium" : string; "good" : string] 20 0 = (None, c))).
Proof.
  assert (get_fresh_edge_content example_runtime (new_generator [kek_row])
            (Some ("general_edge" : string)) None 20 0 = (Some kek_row, 1)) as Hget
    by (by vm_compute).
  split; [exact Hget|].
  exact (get_fresh_edge_content_fresh example_runtime (new_generator [kek_row])
           "general_edge" None 20 0 kek_row 1 Hget).
Defined.

(** X15: with the pools as [organize_content_pools] builds them, a row
    returned for a category is a row of the store; it has a quality
    score of at least 5, a hash that is not recent and, in a frame with
    the column [category], that category, unless it is the fallback
    sample of the whole store, which may be of any category and
    quality, and recent.  In a frame without the column [category] the
    row may be of any category. *)
Theorem get_fresh_edge_content_of_category (rt : Runtime) (has_category : bool)
    (df0 : list Row) (recent : gset text) (style : string)
    (max_attempts cur : nat) (row : Row) (cur' : nat) :
  style ∈ categories →
  get_fresh_edge_content rt
    {| df := df0; content_pools := organize_content_pools has_category df0;
       recent_content := recent |}
    (Some style) None max_attempts cur = (Some row, cur') →
  row ∈ df0 ∧
  (((has_category = true → row_category row = style) ∧
    (5 <= row_quality_score row)%Q ∧
    get_content_hash rt (row_content row) ∉ recent) ∨
   (∃ c, sample rt df0 c = Some row ∧ cur' = S c)).
Proof.
  intros Hstyle Hget.
  split.
  { apply get_fresh_edge_content_drawable in Hget.
    by eapply new_generator_drawable. }
  apply get_fresh_edge_content_source in Hget
    as [(quality & pool & Hq & Hpool & Hrow & Hrec)|(c & Hs & -> & _)];
    [left|right; by exists c].
  cbn [content_pools] in Hpool.
  destruct (organize_content_pools_members has_category df0 style row Hstyle)
    as (Hh & Hm & Hg).
  unfold is_content_recent in Hrec. cbn [recent_content] in Hrec.
  apply bool_decide_eq_false in Hrec.
  repeat (apply elem_of_cons in Hq as [->|Hq]).
  - apply (Hh pool Hpool) in Hrow as (_ & Hc & Hquality).
    repeat split; [done| |done]. eapply Qle_trans; [|exact Hquality]. done.
  - apply (Hm pool Hpool) in Hrow as (_ & Hc & Hquality & _).
    repeat split; [done| |done]. eapply Qle_trans; [|exact Hquality]. done.
  - by apply (Hg pool Hpool) in Hrow as (_ & Hc & Hquality).
  - by apply elem_of_nil in Hq.
Qed.

Lemma get_fresh_edge_content_of_category_witness :
  kek_row ∈ [kek_row] ∧
  (((false = true → row_category kek_row = ("sexual_edge" : string)) ∧
    (5 <= row_quality_score kek_row)%Q ∧
    get_content_hash example_runtime (row_content kek_row) ∉ (∅ : gset text)) ∨
   (∃ c, sample example_runtime [kek_row] c = Some kek_row ∧ 1 = S c)).
Proof.
  apply (get_fresh_edge_content_of_category example_runtime false [kek_row] ∅
           "sexual_edge" 20 0 kek_row 1).
  - unfold categories. by repeat constructor.
  - by vm_compute.
Defined.

(* ===================================================================== *)
(** ** The text of an edge tweet                                         *)
(* ===================================================================== *)

Lemma final_content_of_chars rt row x :
  x ∈ final_content_of rt row → x ≠ ">" ∧ (is_space x = true → x = " ").
Proof.
  unfold final_content_of.
  intros [Hx| ->]%apply_length_constraints_elem_of; [|by split].
  by eapply clean_edge_for_output_chars.
Qed.

Lemma plain_chars_forallb (s : text) (x : ascii) :
  forallb (λ c, negb (Ascii.eqb c ">") && (negb (is_space c) || Ascii.eqb c " ")) s
    = true →
  x ∈ s → x ≠ ">" ∧ (is_space x = true → x = " ").
Proof.
  rewrite forallb_forall. intros Hall Hx%list_elem_of_In.
  apply Hall, andb_true_iff in Hx as [Hgt Hsp]. split.
  - intros ->. done.
  - intros Hspace. rewrite Hspace in Hsp. by apply Ascii.eqb_eq in Hsp.
Qed.

Lemma generate_enhanced_edge_tweet_text rt depth g style cur s g' cur' :
  generate_enhanced_edge_tweet rt depth g style cur = Returns (s, g', cur') →
  s ≠ [] ∧ length s ≤ 280 ∧
  (∀ x, x ∈ s → x ≠ ">" ∧ (is_space x = true → x = " ")) ∧
  df g' = df g ∧ content_pools g' = content_pools g ∧
  size (recent_content g') ≤ max (size (recent_content g)) max_recent.
Proof.
  intros [[-> ->]|[[-> ->]|(row & _ & -> & Hne & ->)]]%generate_enhanced_edge_tweet_result.
  - split; [done|]. split; [simpl; lia|]. split; [|split; [done|split; [done|lia]]].
    intros x. by apply plain_chars_forallb.
  - split; [done|]. split; [simpl; lia|]. split; [|split; [done|split; [done|lia]]].
    intros x. by apply plain_chars_forallb.
  - split; [done|]. split; [apply apply_length_constraints_le|].
    split; [intros x; apply final_content_of_chars|].
    split; [done|]. split; [done|].
    pose proof (track_content_usage_size rt g (row_content row)). lia.
Qed.

(** X16: a text that [generate_enhanced_edge_tweet] returns, be it of a
    row or one of the two fixed strings, is not empty, has at most 280
    characters, holds no [>] and no whitespace other than the plain
    space; the call leaves the store and the pools as they were, and
    the set of recent hashes no larger than the larger of its size
    before and [max_recent]. *)
Theorem generate_enhanced_edge_tweet_output (rt : Runtime) (depth : nat)
    (g : EdgeGenerator) (style : option string) (cur : nat)
    (s : text) (g' : EdgeGenerator) (cur' : nat) :
  generate_enhanced_edge_tweet rt depth g style cur = Returns (s, g', cur') →
  s ≠ [] ∧ length s ≤ 280 ∧
  (∀ x, x ∈ s → x ≠ ">" ∧ (is_space x = true → x = " ")) ∧
  df g' = df g ∧ content_pools g' = content_pools g ∧
  size (recent_content g') ≤ max (size (recent_content g)) max_recent.
Proof. apply generate_enhanced_edge_tweet_text. Qed.

Lemma generate_enhanced_edge_tweet_output_witness :
  txt "nobody reads the sticky" ≠ [] ∧
  length (txt "nobody reads the sticky") ≤ 280 ∧
  (∀ x, x ∈ txt "nobody reads the sticky" →
        x ≠ ">" ∧ (is_space x = true → x = " ")) ∧
  df (track_content_usage example_runtime (new_generator [plain_row])
        (txt "nobody reads the sticky")) = df (new_generator [plain_row]) ∧
  content_pools (track_content_usage example_runtime (new_generator [plain_row])
                   (txt "nobody reads the sticky"))
    = content_pools (new_generator [plain_row]) ∧
  size (recent_content (track_content_usage example_runtime
                          (new_generator [plain_row])
                          (txt "nobody reads the sticky")))
    ≤ max (size (recent_content (new_generator [plain_row]))) max_recent.
Proof.
  apply (generate_enhanced_edge_tweet_output example_runtime 1
           (new_generator [plain_row]) None 0 _ _ 2).
  by vm_compute.
Defined.

Lemma edge_tweets_from_spec rt depth variety n i g cur tweets g' cur' :
  edge_tweets_from rt depth variety n i g cur = Returns (tweets, g', cur') →
  length tweets = n ∧
  (∀ tweet, tweet ∈ tweets →
     tweet ≠ [] ∧ length tweet ≤ 280 ∧
     ∀ x, x ∈ tweet → x ≠ ">" ∧ (is_space x = true → x = " ")) ∧
  df g' = df g ∧ content_pools g' = content_pools g ∧
  size (recent_content g') ≤ max (size (recent_content g)) max_recent.
Proof.
  revert i g cur tweets.
  induction n as [|n IH]; intros i g cur tweets; cbn [edge_tweets_from].
  { intros [= <- <- <-]. split; [done|]. split; [by intros ? ?%elem_of_nil|].
    split; [done|]. split; [done|]. lia. }
  cbv zeta.
  destruct (generate_enhanced_edge_tweet rt depth g _ cur) as [[[tweet g1] cur1]|]
    eqn:Hone; [|done].
  destruct (edge_tweets_from rt depth variety n (S i) g1 cur1)
    as [[[rest g2] cur2]|] eqn:Hrest; [|done].
  intros [= <- <- <-].
  apply generate_enhanced_edge_tweet_text in Hone
    as (Hne & Hlen & Hchars & Hdf & Hpools & Hsize).
  apply IH in Hrest as (Hcount & Heach & Hdf' & Hpools' & Hsize').
  split; [simpl; by rewrite Hcount|].
  split; [|split; [congruence|split; [congruence|lia]]].
  intros t [->|Hin]%elem_of_cons; [done|by apply Heach].
Qed.

(** X17: when [generate_multiple_edge_tweets] returns, it returns
    [count] texts, each not empty, of at most 280 characters, without
    [>] and without whitespace other than the plain space; the store
    and the pools are as before and the set of recent hashes is no
    larger than the larger of its size before and [max_recent]. *)
Theorem generate_multiple_edge_tweets_output (rt : Runtime) (depth : nat)
    (g : EdgeGenerator) (count : nat) (variety : bool) (cur : nat)
    (tweets : list text) (g' : EdgeGenerator) (cur' : nat) :
  generate_multiple_edge_tweets rt depth g count variety cur
    = Returns (tweets, g', cur') →
  length tweets = count ∧
  (∀ tweet, tweet ∈ tweets →
     tweet ≠ [] ∧ length tweet ≤ 280 ∧
     ∀ x, x ∈ tweet → x ≠ ">" ∧ (is_space x = true → x = " ")) ∧
  df g' = df g ∧ content_pools g' = content_pools g ∧
  size (recent_content g') ≤ max (size (recent_content g)) max_recent.
Proof. apply edge_tweets_from_spec. Qed.

Lemma generate_multiple_edge_tweets_output_witness :
  ∃ tweets g' cur',
    generate_multiple_edge_tweets example_runtime 1 (new_generator [plain_row])
      2 true 0 = Returns (tweets, g', cur') ∧
    length tweets = 2 ∧
    (∀ tweet, tweet ∈ tweets →
       tweet ≠ [] ∧ length tweet ≤ 280 ∧
       ∀ x, x ∈ tweet → x ≠ ">" ∧ (is_space x = true → x = " ")) ∧
    df g' = df (new_generator [plain_row]) ∧
    content_pools g' = content_pools (new_generator [plain_row]) ∧
    size (recent_content g')
      ≤ max (size (recent_content (new_generator [plain_row]))) max_recent.
Proof.
  destruct (generate_multiple_edge_tweets example_runtime 1
              (new_generator [plain_row]) 2 true 0)
    as [[[tweets g'] cur']|] eqn:Hrun; [|by vm_compute in Hrun].
  exists tweets, g', cur'. split; [done|].
  exact (generate_multiple_edge_tweets_output example_runtime 1
           (new_generator [plain_row]) 2 true 0 tweets g' cur' Hrun).
Defined.

Lemma edge_tweets_from_empty rt depth variety n i g cur :
  df g = [] →
  edge_tweets_from rt (S depth) variety n i g cur
    = Returns (replicate n (txt "No authentic edge content available"), g, cur).
Proof.
  intros Hdf. revert i. induction n as [|n IH]; intros i; [done|].
  cbn [edge_tweets_from generate_enhanced_edge_tweet]. cbv zeta.
  rewrite Hdf. cbn [edge_tweets_from generate_enhanced_edge_tweet] in IH.
  by rewrite IH.
Qed.

(** X18: on an empty store [generate_multiple_edge_tweets] returns
    [count] times the text "No authentic edge content available", uses
    no random draw and leaves the generator as it was, with or without
    variety; no call recurses. *)
Theorem generate_multiple_edge_tweets_empty (rt : Runtime) (depth : nat)
    (g : EdgeGenerator) (count : nat) (variety : bool) (cur : nat) :
  df g = [] →
  generate_multiple_edge_tweets rt (S depth) g count variety cur
    = Returns (replicate count (txt "No authentic edge content available"), g, cur).
Proof. apply edge_tweets_from_empty. Qed.

Lemma generate_multiple_edge_tweets_empty_witness :
  generate_multiple_edge_tweets example_runtime 1 (new_generator []) 3 true 0
    = Returns (replicate 3 (txt "No authentic edge content available"),
               new_generator [], 0).
Proof.
  by apply (generate_multiple_edge_tweets_empty example_runtime 0 (new_generator [])).
Defined.

(* ===================================================================== *)
(** ** The set of recent hashes                                          *)
(* ===================================================================== *)

(** X19: a content passed to [track_content_usage] is recent afterwards
    when the set held fewer than [max_recent] hashes, or held the hash
    of the content already and no more than [max_recent] hashes. *)
Theorem track_content_usage_recent (rt : Runtime) (g : EdgeGenerator)
    (content : text) :
  size (recent_content g) < max_recent ∨
    (is_content_recent rt g content = true ∧
     size (recent_content g) ≤ max_recent) →
  is_content_recent rt (track_content_usage rt g content) content = true.
Proof.
  intros Hroom. unfold is_content_recent at 1. apply bool_decide_eq_true.
  apply track_content_usage_records.
  destruct Hroom as [?|[Hrec ?]]; [by left|right].
  split; [|done]. unfold is_content_recent in Hrec.
  by apply bool_decide_eq_true in Hrec.
Qed.

Lemma track_content_usage_recent_witness :
  is_content_recent example_runtime
    (track_content_usage example_runtime (new_generator [plain_row]) (txt "kek"))
    (txt "kek") = true.
Proof.
  apply (track_content_usage_recent example_runtime (new_generator [plain_row])).
  left. change (size (∅ : gset text) < 100). rewrite size_empty. lia.
Defined.

Lemma slice_last_NoDup {A} (n : nat) (l : list A) :
  NoDup l → NoDup (slice_last n l).
Proof.
  intros Hl. destruct n as [|n]; [done|]. cbn [slice_last].
  rewrite <- (take_drop (length l - S n) l) in Hl.
  by apply NoDup_app in Hl as (_ & _ & Hl).
Qed.

Lemma slice_last_length_eq {A} (n : nat) (l : list A) :
  n < length l → 0 < n → length (slice_last n l) = n.
Proof.
  intros Hlt Hpos. destruct n as [|n]; [lia|]. cbn [slice_last].
  rewrite length_drop. lia.
Qed.

(** X20: when [list] of a set lists its elements once each, in whatever
    order, [track_content_usage] leaves only hashes of the set before
    and the hash of the content; all of them while they are at most
    [max_recent], and exactly [max_recent] of them once they are
    more. *)
Theorem track_content_usage_eviction (rt : Runtime) (g : EdgeGenerator)
    (content : text) :
  set_order_sound rt →
  recent_content (track_content_usage rt g content)
    ⊆ {[get_content_hash rt content]} ∪ recent_content g ∧
  (size ({[get_content_hash rt content]} ∪ recent_content g) ≤ max_recent →
   recent_content (track_content_usage rt g content)
     = {[get_content_hash rt content]} ∪ recent_content g) ∧
  (max_recent < size ({[get_content_hash rt content]} ∪ recent_content g) →
   size (recent_content (track_content_usage rt g content)) = max_recent).
Proof.
  intros Hsound. split; [by apply track_content_usage_subseteq|].
  unfold track_content_usage. cbn [recent_content].
  split; intros Hsize; case_decide as Hdec; try lia; [done|].
  assert (NoDup (set_order rt ({[get_content_hash rt content]} ∪ recent_content g)))
    as Hnd.
  { rewrite (Hsound _). apply NoDup_elements. }
  assert (length (set_order rt ({[get_content_hash rt content]} ∪ recent_content g))
          = size ({[get_content_hash rt content]} ∪ recent_content g)) as Hlen.
  { by rewrite (Hsound _). }
  rewrite size_list_to_set by by apply slice_last_NoDup.
  apply slice_last_length_eq; [lia|unfold max_recent; lia].
Qed.

Lemma example_runtime_order : set_order_sound example_runtime.
Proof. by intros s. Qed.

Lemma track_content_usage_eviction_witness :
  recent_content (track_content_usage example_runtime (new_generator [plain_row])
                    (txt "kek"))
    = {[get_content_hash example_runtime (txt "kek")]}
      ∪ recent_content (new_generator [plain_row]).
Proof.
  apply (track_content_usage_eviction example_runtime (new_generator [plain_row])
           (txt "kek") example_runtime_order).
  change (size ({[txt "kek"]} ∪ ∅ : gset text) ≤ 100).
  rewrite size_union_alt, size_singleton.
  pose proof (subseteq_size ((∅ : gset text) ∖ {[txt "kek"]}) ∅
                (subseteq_difference_l _ _ _ (reflexivity _))) as Hle.
  rewrite size_empty in Hle. lia.
Defined.

(* ===================================================================== *)
(** ** The rate limiter                                                  *)
(* ===================================================================== *)

Lemma timestamps_insert (storage : RateLimitStorage) ip ep l ip' ep' :
  timestamps (<[ip := <[ep := l]> (default ∅ (storage !! ip))]> storage) ip' ep'
  = if decide (ip = ip' ∧ ep = ep') then l else timestamps storage ip' ep'.
Proof.
  unfold timestamps. destruct (decide (ip = ip')) as [<-|Hip].
  - rewrite lookup_insert_eq. cbn [default from_option id].
    destruct (decide (ep = ep')) as [<-|Hep].
    + rewrite lookup_insert_eq. by rewrite decide_True.
    + rewrite lookup_insert_ne by done. rewrite decide_False by tauto. done.
  - rewrite lookup_insert_ne by done. by rewrite decide_False by tauto.
Qed.

Lemma is_rate_limited_timestamps storage now ip ep ip' ep' :
  timestamps (is_rate_limited storage now ip ep).2 ip' ep'
  = if decide (ip = ip' ∧ ep = ep')
    then List.filter (λ timestamp, Z.ltb (now - hour) timestamp)
           (timestamps storage ip ep)
         ++ (if (is_rate_limited storage now ip ep).1 then [] else [now])
    else timestamps storage ip' ep'.
Proof.
  unfold is_rate_limited. cbv zeta.
  destruct (Nat.leb _ _); cbn [fst snd]; rewrite timestamps_insert;
    case_decide; by rewrite ?app_nil_r.
Qed.

Lemma is_rate_limited_answer storage now ip ep :
  (is_rate_limited storage now ip ep).1
  = bool_decide (max_allowed_of ep
                 ≤ length (List.filter (λ timestamp, Z.ltb (now - hour) timestamp)
                             (timestamps storage ip ep))).
Proof.
  unfold is_rate_limited. cbv zeta.
  destruct (Nat.leb _ _) eqn:Hle; cbn [fst].
  - apply Nat.leb_le in Hle. by rewrite bool_decide_eq_true_2.
  - apply Nat.leb_gt in Hle. rewrite bool_decide_eq_false_2; [done|lia].
Qed.


Lemma max_allowed_of_pos endpoint_type : 0 < max_allowed_of endpoint_type.
Proof.
  unfold max_allowed_of, MAX_REQUESTS_PER_HOUR.
  repeat (destruct (String.eqb endpoint_type _); [simpl; lia|]). simpl. lia.
Qed.












(* ===================================================================== *)
(** ** The input filter                                                  *)
(* ===================================================================== *)

(** A sequence of classes matches the characters that are in them. *)
Lemma rmatch_classes {A} (ps : list (ascii → bool)) (m rest : text)
    (prev : option ascii) (k : option ascii → text → option A) :
  Forall2 (λ p c, p c = true) ps m →
  ∃ prev', rmatch (Seqs (Class <$> ps)) prev (m ++ rest) k = k prev' rest.
Proof.
  intros Hall. revert prev. induction Hall as [|p c ps m Hp Hall IH]; intros prev.
  { by exists prev. }
  destruct Hall as [|p' c' ps m Hp' Hall].
  - exists (Some c). cbn. by rewrite Hp.
  - destruct (IH (Some c)) as [prev' Hrest]. exists prev'.
    change (Seqs (Class <$> p :: p' :: ps))
      with (Seq (Class p) (Seqs (Class <$> p' :: ps))).
    cbn [rmatch app]. by rewrite Hp.
Qed.

Lemma search_from_app r prev a s :
  (∀ prev', match_here r prev' s ≠ None) → search_from r prev (a ++ s) = true.
Proof.
  intros Hs. revert prev. induction a as [|c a IH]; intros prev.
  - specialize (Hs prev). destruct s; simpl; by destruct (match_here r prev _).
  - simpl. destruct (match_here r prev (c :: a ++ s)); [done|apply IH].
Qed.

(** A text that holds the letters of [needle], in whatever case, has a
    match of the pattern for [needle] under [re.IGNORECASE]. *)
Lemma re_search_StrI needle a m b :
  lower <$> m = lower <$> txt needle →
  re_search (StrI needle) (a ++ m ++ b) = true.
Proof.
  intros Hm. apply search_from_app. intros prev. unfold match_here, StrI.
  assert (LitI <$> txt needle
          = Class <$> ((λ c x, Ascii.eqb (lower x) (lower c)) <$> txt needle)) as ->.
  { by rewrite <- list_fmap_compose. }
  destruct (rmatch_classes ((λ c x, Ascii.eqb (lower x) (lower c)) <$> txt needle)
              m b prev (λ prev' s', Some (prev', s'))) as [prev' ->]; [|done].
  apply Forall2_fmap_l.
  revert m Hm. generalize (txt needle).
  induction l as [|c l IH]; intros [|x m] Hm; try done; simplify_eq/=.
  constructor; [|by apply IH]. apply Ascii.eqb_eq. congruence.
Qed.

(** X23: [validate_input] refuses every text of more than 10000
    characters, and every text that holds [javascript:] in whatever
    letter case, or [../], whatever stands around it. *)
Theorem validate_input_rejects (text_input : text) :
  ((10000 < Z.of_nat (length text_input))%Z → validate_input text_input = false) ∧
  (∀ a m b, text_input = a ++ m ++ b →
            lower <$> m = txt "javascript:" ∨ m = txt "../" →
            validate_input text_input = false).
Proof.
  unfold validate_input. split.
  - intros Hlen. destruct text_input as [|c s]; [simpl in Hlen; lia|].
    destruct (existsb _ _); [done|]. apply Z.ltb_lt in Hlen. by rewrite Hlen.
  - intros a m b -> Hm.
    assert (existsb (λ pattern, re_search pattern (a ++ m ++ b)) SUSPICIOUS_PATTERNS
            = true) as ->.
    { apply existsb_exists. destruct Hm as [Hm| ->].
      - exists (StrI "javascript:"). split; [by repeat constructor|].
        by apply re_search_StrI.
      - exists (StrI "../"). split; [by repeat constructor|].
        by apply re_search_StrI. }
    destruct (a ++ m ++ b) eqn:Heq; [|done].
    apply app_eq_nil in Heq as [_ [-> _]%app_eq_nil].
    by destruct Hm.
Qed.

Lemma validate_input_rejects_witness :
  validate_input (txt "see ../etc/passwd") = false.
Proof.
  apply (proj2 (validate_input_rejects (txt "see ../etc/passwd"))
           (txt "see ") (txt "../") (txt "etc/passwd")); [done|by right].
Defined.

(* ===================================================================== *)
(** ** Upload names                                                      *)
(* ===================================================================== *)

Lemma rsplit_tail_None sep s : rsplit_tail sep s = None ↔ sep ∉ s.
Proof.
  induction s as [|c s IH]; simpl.
  - split; [|done]. intros _ ?%elem_of_nil. done.
  - destruct (rsplit_tail sep s) as [t|].
    + split; [done|]. intros Hnot. exfalso.
      assert (sep ∉ s) as Hs by (intros ?; apply Hnot; by right).
      apply IH in Hs. done.
    + case_decide as Hc.
      * split; [done|]. intros Hnot. exfalso. apply Hnot. subst. by left.
      * split; [|done]. intros _ [?|?]%elem_of_cons; [done|]. by apply IH.
Qed.

Lemma rsplit_tail_Some sep s tail :
  rsplit_tail sep s = Some tail ↔ ∃ head, s = head ++ sep :: tail ∧ sep ∉ tail.
Proof.
  split.
  - revert tail. induction s as [|c s IH]; intros tail; simpl; [done|].
    destruct (rsplit_tail sep s) as [t|] eqn:Ht.
    + intros [= ->]. destruct (IH tail eq_refl) as (head & -> & Hnot).
      by exists (c :: head).
    + case_decide as Hc; [|done]. intros [= ->]. subst c.
      exists []. split; [done|]. by apply rsplit_tail_None.
  - intros (head & -> & Hnot). induction head as [|c head IH]; simpl.
    + apply rsplit_tail_None in Hnot. rewrite Hnot. by rewrite decide_True.
    + by rewrite IH.
Qed.

(** X24: [allowed_file] accepts a name exactly when it has a dot and
    what stands after its last dot is, once in lower case, one of
    [png], [jpg], [jpeg], [gif], [webp]; what stands before the last
    dot, be it empty or a path, is not looked at. *)
Theorem allowed_file_extension (filename : text) :
  allowed_file filename = true ↔
  ∃ stem extension,
    filename = stem ++ "." :: extension ∧ ("." ∉ extension) ∧
    str_lower <$> extension ∈ ALLOWED_EXTENSIONS.
Proof.
  unfold allowed_file. split.
  - intros [Hdot Hext]%andb_true_iff.
    destruct (rsplit_tail "." filename) as [extension|] eqn:Htail; [|done].
    apply rsplit_tail_Some in Htail as (stem & -> & Hnot).
    apply bool_decide_eq_true in Hext. by exists stem, extension.
  - intros (stem & extension & -> & Hnot & Hext).
    apply andb_true_iff. split.
    + apply bool_decide_eq_true, elem_of_app. right. by left.
    + assert (rsplit_tail "." (stem ++ "." :: extension) = Some extension) as ->.
      { apply rsplit_tail_Some. by exists stem. }
      by apply bool_decide_eq_true.
Qed.

(* ===================================================================== *)
(** ** The text of the endpoints                                         *)
(* ===================================================================== *)

Lemma meme_text_spec tweet :
  length (meme_text tweet) ≤ 280 ∧
  length (meme_text tweet) ≤ length tweet ∧
  (length tweet ≤ 280 → meme_text tweet = strip (replace "- Remilio" [] tweet)).
Proof.
  unfold meme_text, replace. cbv zeta.
  assert (length (strip (re_sub (Str "- Remilio") [] tweet)) ≤ length tweet) as Hle.
  { etrans; [apply strip_length|]. apply re_sub_length. simpl. lia. }
  case_decide as Hlong.
  - rewrite length_app, length_take. change (length (txt "...")) with 3.
    split; [lia|]. split; lia.
  - split; [lia|]. by split.
Qed.

(** X25: the text [generate_ultra_enhanced_text] and
    [generate_terminally_online_text] answer with has at most 280
    characters and is no longer than the tweet it is made of; a tweet
    of at most 280 characters is only rid of [- Remilio] and
    stripped. *)
Theorem meme_text_bound (tweet : text) :
  length (meme_text tweet) ≤ 280 ∧
  length (meme_text tweet) ≤ length tweet ∧
  (length tweet ≤ 280 → meme_text tweet = strip (replace "- Remilio" [] tweet)).
Proof. apply meme_text_spec. Qed.

Lemma meme_text_bound_witness :
  meme_text (txt "gm - Remilio") = strip (replace "- Remilio" [] (txt "gm - Remilio")).
Proof. apply (meme_text_bound (txt "gm - Remilio")). simpl. lia. Defined.

(** X26: the text [generate_terminally_online_text] answers with has at
    most 200 characters and no [>], whatever the state of the simple
    generator.  With a generator whose dataset was read it is the tweet
    rid of [- Remilio] and stripped: the tweet has at most 200
    characters, so the cut to 280 never applies.  With a generator
    whose dataset was missing or unreadable it is the fixed text of the
    error answer, with status 500, when the draw is below 0.7 and
    "Content pool exhausted" when it is not; without a generator it is
    the error answer. *)
Theorem generate_terminally_online_text_uncut (rt : Runtime)
    (simple_edge_generator : option SimpleEnhancedEdgeGenerator) (cur : nat) :
  length (generate_terminally_online_text rt simple_edge_generator cur).1 ≤ 200 ∧
  (">" ∉ (generate_terminally_online_text rt simple_edge_generator cur).1) ∧
  (∀ g, simple_edge_generator = Some (Loaded g) →
     generate_terminally_online_text rt simple_edge_generator cur
       = (strip (replace "- Remilio" [] (generate_tweet rt g cur).1.1), 200)) ∧
  (∀ outputs, simple_edge_generator = Some (NotLoaded outputs) →
     ((random rt cur < f0_7)%Q →
      generate_terminally_online_text rt simple_edge_generator cur
        = (txt "anon is experiencing technical difficulties...", 500)) ∧
     ((f0_7 <= random rt cur)%Q →
      generate_terminally_online_text rt simple_edge_generator cur
        = (txt "Content pool exhausted", 200))) ∧
  (simple_edge_generator = None →
   generate_terminally_online_text rt simple_edge_generator cur
     = (txt "anon is experiencing technical difficulties...", 500)).
Proof.
  assert (∀ g, generate_terminally_online_text rt (Some (Loaded g)) cur
               = (strip (replace "- Remilio" [] (generate_tweet rt g cur).1.1), 200))
    as Hloaded.
  { intros g. cbn [generate_terminally_online_text generate_tweet_on].
    pose proof (generate_tweet_text rt g cur) as [Hlen _].
    destruct (generate_tweet rt g cur) as [[tweet g'] cur']. cbn [fst snd] in *.
    destruct (meme_text_spec tweet) as (_ & _ & Heq). by rewrite Heq by lia. }
  assert (length (txt "anon is experiencing technical difficulties...") ≤ 200 ∧
          ">" ∉ txt "anon is experiencing technical difficulties...") as Herror.
  { split; [vm_compute; lia|]. intros Hx. not_in_literal Hx. }
  assert (length (meme_text (txt "Content pool exhausted")) ≤ 200 ∧
          ">" ∉ meme_text (txt "Content pool exhausted")) as Hfixed.
  { replace (meme_text (txt "Content pool exhausted"))
      with (txt "Content pool exhausted") by (by vm_compute).
    split; [vm_compute; lia|]. intros Hx. not_in_literal Hx. }
  assert (length (generate_terminally_online_text rt simple_edge_generator cur).1
            ≤ 200 ∧
          ">" ∉ (generate_terminally_online_text rt simple_edge_generator cur).1)
    as [Hlen Hgt].
  { destruct simple_edge_generator as [[g|outputs]|]; [|cbn|done].
    - rewrite Hloaded. cbn [fst].
      pose proof (generate_tweet_text rt g cur) as [Hlen Hgt]. split.
      + etrans; [apply strip_length|]. etrans; [|exact Hlen].
        apply re_sub_length. simpl. lia.
      + unfold replace. intros Hx%strip_elem_of%re_sub_remove_elem_of. done.
    - by destruct (Qltb (random rt cur) f0_7). }
  split; [done|]. split; [done|]. split; [|split].
  - by intros g ->.
  - intros outputs ->. cbn. split.
    + intros Hlt%Qltb_true. by rewrite Hlt.
    + intros Hle%Qltb_false. rewrite Hle. by vm_compute.
  - by intros ->.
Qed.

Lemma generate_terminally_online_text_uncut_witness :
  generate_terminally_online_text example_runtime (Some (Loaded simple_example)) 0
  = (strip (replace "- Remilio" []
              (generate_tweet example_runtime simple_example 0).1.1), 200).
Proof.
  by apply (proj1 (proj2 (proj2 (generate_terminally_online_text_uncut
                                   example_runtime
                                   (Some (Loaded simple_example)) 0)))).
Defined.

Lemma rfind_from_absent c s i : c ∉ s → rfind_from c s i = (-1)%Z.
Proof.
  revert i. induction s as [|x s IH]; intros i Hnot; [done|]. simpl.
  rewrite IH by (intros ?; apply Hnot; by right). simpl.
  rewrite decide_False; [done|]. intros ->. apply Hnot. by left.
Qed.

Lemma rfind_from_last c head rest i :
  c ∉ rest → (0 <= i)%Z →
  rfind_from c (head ++ c :: rest) i = (i + Z.of_nat (length head))%Z.
Proof.
  intros Hnot. revert i. induction head as [|x head IH]; intros i Hi; simpl.
  - rewrite rfind_from_absent by done. simpl. rewrite decide_True by done. lia.
  - rewrite IH by lia.
    destruct (0 <=? i + 1 + Z.of_nat (length head))%Z eqn:Hle; [lia|].
    apply Z.leb_gt in Hle. lia.
Qed.

(** Cutting at [rfind] is cutting at [rsplit]. *)
Lemma slice_to_rfind c s hi (d : nat) :
  c ∈ take hi s → d ≤ 1 →
  slice_to (rfind c s hi + Z.of_nat d) s = rsplit_head c (take hi s) ++ take d [c].
Proof.
  intros Hin Hd.
  destruct (rsplit_head_split c (take hi s) Hin) as (rest & Heq & Hnot).
  unfold rfind. remember (rsplit_head c (take hi s)) as head eqn:Hhead. clear Hhead.
  rewrite Heq. rewrite rfind_from_last by (done || lia).
  unfold slice_to.
  destruct (_ <? 0)%Z eqn:Hneg; [apply Z.ltb_lt in Hneg; lia|].
  replace (Z.to_nat (0 + Z.of_nat (length head) + Z.of_nat d))
    with (length head + d) by lia.
  rewrite <- (take_drop hi s), Heq, <- app_assoc.
  rewrite take_app_add' by done.
  f_equal. destruct d as [|[|d]]; [done|done|lia].
Qed.

Lemma auto_text_cut_spec clean_text :
  (10 ≤ length clean_text → auto_text_cut clean_text = apply_length_constraints clean_text) ∧
  length (auto_text_cut clean_text) ≤ 280 ∧
  length (auto_text_cut clean_text) ≤ length clean_text.
Proof.
  assert (10 ≤ length clean_text →
          auto_text_cut clean_text = apply_length_constraints clean_text) as Heq.
  { intros Hlen. unfold auto_text_cut, apply_length_constraints.
    rewrite (decide_False (P := length clean_text < 10)) by lia.
    case_decide as Hlong; [|done]. cbv zeta.
    case_decide as Hdot.
    - change 1%Z with (Z.of_nat 1). by rewrite slice_to_rfind.
    - case_decide as Hcomma; [|done].
      rewrite <- (Z.add_0_r (rfind "," clean_text 277)).
      change 0%Z with (Z.of_nat 0). rewrite slice_to_rfind by (done || lia).
      simpl. by rewrite app_nil_r. }
  split; [done|].
  destruct (decide (10 ≤ length clean_text)) as [Hlen|Hshort].
  - rewrite Heq by done. split; [apply apply_length_constraints_le|].
    destruct (apply_length_constraints_shape clean_text) as [[k Hk]|[Hlong ->]].
    + rewrite Hk at 2. rewrite length_app. lia.
    + rewrite length_app, length_take. change (length (txt "...")) with 3. lia.
  - unfold auto_text_cut. rewrite decide_False by lia. lia.
Qed.

(** X27: the cut to 280 characters that [generate_auto_text] writes
    with [rfind] is the cut of [apply_length_constraints] on every text
    of 10 characters or more; shorter texts it leaves as they are,
    where [apply_length_constraints] gives the empty text.  Its result
    has at most 280 characters and is no longer than the text. *)
Theorem auto_text_cut_agrees (clean_text : text) :
  (10 ≤ length clean_text → auto_text_cut clean_text = apply_length_constraints clean_text) ∧
  length (auto_text_cut clean_text) ≤ 280 ∧
  length (auto_text_cut clean_text) ≤ length clean_text.
Proof. apply auto_text_cut_spec. Qed.

Lemma auto_text_cut_agrees_witness :
  auto_text_cut (txt "One. Two, three" ++ replicate 300 "a")
    = apply_length_constraints (txt "One. Two, three" ++ replicate 300 "a").
Proof.
  apply (auto_text_cut_agrees (txt "One. Two, three" ++ replicate 300 "a")).
  vm_compute. lia.
Defined.

(** X28: the text [generate_auto_text] answers with has at most 280
    characters and is no longer than the tweet of the generator it
    drew. *)
Theorem auto_text_bound (tweet : text) :
  length (auto_text tweet) ≤ 280 ∧ length (auto_text tweet) ≤ length tweet.
Proof.
  unfold auto_text, replace. cbv zeta.
  destruct (auto_text_cut_spec
              (re_sub trailing_reference []
                 (re_sub leading_reference []
                    (strip (re_sub (Str "- Remilio") [] tweet)))))
    as (_ & H280 & Hle).
  split; [done|]. etrans; [exact Hle|].
  do 2 (etrans; [apply re_sub_length; simpl; lia|]).
  etrans; [apply strip_length|]. apply re_sub_length. simpl. lia.
Qed.

(* ===================================================================== *)
(** ** Whom the rate limiter counts                                      *)
(* ===================================================================== *)

Lemma serve_fresh requests storage :
  (∀ r, r ∈ requests → timestamps storage (req_ip r) (req_endpoint r) = []) →
  NoDup ((λ r, (req_ip r, req_endpoint r)) <$> requests) →
  (serve storage requests).1 = replicate (length requests) false.
Proof.
  revert storage. induction requests as [|r rest IH]; intros storage Hempty Hnd;
    [done|].
  cbn [serve]. cbn [fmap list_fmap] in Hnd. apply NoDup_cons in Hnd as [Hr Hnd].
  pose proof (is_rate_limited_answer storage (req_time r) (req_ip r) (req_endpoint r))
    as Hanswer.
  pose proof (is_rate_limited_timestamps storage (req_time r) (req_ip r)
                (req_endpoint r)) as Hts.
  destruct (is_rate_limited storage _ _ _) as [limited storage'].
  cbn [fst snd] in Hanswer, Hts.
  rewrite (Hempty r) in Hanswer by by left. cbn in Hanswer.
  rewrite bool_decide_eq_false_2 in Hanswer
    by (pose proof (max_allowed_of_pos (req_endpoint r)); lia).
  subst limited.
  specialize (IH storage'). destruct (serve storage' rest) as [results storage''].
  cbn [fst length replicate] in *. f_equal. apply IH; [|done].
  intros r' Hr'. rewrite Hts. rewrite decide_False.
  - apply Hempty. by right.
  - intros [Hip Hep]. apply Hr. apply list_elem_of_fmap.
    exists r'. split; [|done]. by rewrite Hip, Hep.
Qed.

Lemma timestamps_empty ip ep : timestamps ∅ ip ep = [].
Proof. unfold timestamps. rewrite lookup_empty. cbn. by rewrite lookup_empty. Qed.

(** X29: requests that differ pairwise in client address or endpoint
    type are all let through, however many they are and whenever they
    come: the limiter counts each address apart. *)
Theorem is_rate_limited_distinct_clients (requests : list Request) :
  NoDup ((λ r, (req_ip r, req_endpoint r)) <$> requests) →
  (serve ∅ requests).1 = replicate (length requests) false.
Proof. apply serve_fresh. intros r _. apply timestamps_empty. Qed.

Lemma is_rate_limited_distinct_clients_witness :
  (serve ∅ [{| req_time := 5; req_ip := txt "10.0.0.1"; req_endpoint := "upload" |};
            {| req_time := 5; req_ip := txt "10.0.0.2"; req_endpoint := "upload" |}]).1
  = replicate 2 false.
Proof.
  apply (is_rate_limited_distinct_clients
           [{| req_time := 5; req_ip := txt "10.0.0.1"; req_endpoint := "upload" |};
            {| req_time := 5; req_ip := txt "10.0.0.2"; req_endpoint := "upload" |}]).
  cbn [fmap list_fmap req_ip req_endpoint].
  apply NoDup_cons. split.
  - intros [?|?%elem_of_nil]%elem_of_cons; done.
  - apply NoDup_singleton.
Defined.

Lemma split_first_absent sep s : sep ∉ s → split_first sep s = s.
Proof.
  induction s as [|c s IH]; intros Hnot; [done|]. simpl.
  rewrite decide_False by (intros ->; apply Hnot; by left).
  rewrite IH; [done|]. intros ?. apply Hnot. by right.
Qed.

Lemma split_first_elem_of sep s : sep ∉ split_first sep s.
Proof.
  induction s as [|c s IH]; simpl; [by intros ?%elem_of_nil|].
  case_decide; [by intros ?%elem_of_nil|].
  intros [?|?]%elem_of_cons; [by subst|done].
Qed.

(** The header [X-Forwarded-For], when it is there and not empty,
    decides the address. *)
Lemma get_client_ip_forwarded_for request v :
  x_forwarded_for request = Some v → v ≠ [] →
  get_client_ip request = strip (split_first "," v) ∧
  ("," ∉ get_client_ip request) ∧
  ("," ∉ v → strip v = v → get_client_ip request = v).
Proof.
  intros Hv Hne. unfold get_client_ip. rewrite Hv.
  destruct v as [|c v]; [done|]. split; [done|]. split.
  - intros Hx%strip_elem_of. by apply split_first_elem_of in Hx.
  - intros Hnot Hstrip. by rewrite split_first_absent.
Qed.

(** X30: under the [rate_limit] decorator the client address is taken
    from the header [X-Forwarded-For] whenever the request has one, so
    calls that each bring another value in that header (a non-empty
    text without comma and without whitespace around it) are all let
    through, whatever peer they come from and however many they
    are. *)
Theorem rate_limit_forwarded_for (calls : list GuardedCall) :
  (∀ c, c ∈ calls →
     ∃ v, x_forwarded_for (call_request c) = Some v ∧ v ≠ [] ∧
          ("," ∉ v) ∧ strip v = v) →
  NoDup ((λ c, x_forwarded_for (call_request c)) <$> calls) →
  (rate_limit ∅ calls).1 = replicate (length calls) false.
Proof.
  intros Hv Hnd. unfold rate_limit.
  rewrite <- (length_fmap request_of calls).
  apply serve_fresh; [intros r _; apply timestamps_empty|].
  rewrite <- list_fmap_compose.
  induction calls as [|c calls IH]; [constructor|].
  cbn [fmap list_fmap] in *. apply NoDup_cons in Hnd as [Hc Hnd].
  apply NoDup_cons. split.
  - intros Hin. apply Hc.
    apply list_elem_of_fmap in Hin as (c' & Heq & Hc').
    apply list_elem_of_fmap. exists c'. split; [|done].
    destruct (Hv c) as (v & Hfor & Hne & Hcomma & Hstrip); [by left|].
    destruct (Hv c') as (v' & Hfor' & Hne' & Hcomma' & Hstrip'); [by right|].
    injection Heq as Hip _. cbn [req_ip request_of] in Hip.
    destruct (get_client_ip_forwarded_for _ _ Hfor Hne) as (_ & _ & Hget).
    destruct (get_client_ip_forwarded_for _ _ Hfor' Hne') as (_ & _ & Hget').
    rewrite Hget, Hget' in Hip by done. congruence.
  - apply IH; [|done]. intros c' Hc'. apply Hv. by right.
Qed.

Lemma rate_limit_forwarded_for_witness :
  (rate_limit ∅
     [{| call_time := 5;
         call_request := {| x_forwarded_for := Some (txt "10.0.0.1");
                            x_real_ip := None;
                            remote_addr := Some (txt "192.0.2.7") |};
         call_endpoint := "upload" |};
      {| call_time := 6;
         call_request := {| x_forwarded_for := Some (txt "10.0.0.2");
                            x_real_ip := None;
                            remote_addr := Some (txt "192.0.2.7") |};
         call_endpoint := "upload" |}]).1
  = replicate 2 false.
Proof.
  apply (rate_limit_forwarded_for
     [{| call_time := 5;
         call_request := {| x_forwarded_for := Some (txt "10.0.0.1");
                            x_real_ip := None;
                            remote_addr := Some (txt "192.0.2.7") |};
         call_endpoint := "upload" |};
      {| call_time := 6;
         call_request := {| x_forwarded_for := Some (txt "10.0.0.2");
                            x_real_ip := None;
                            remote_addr := Some (txt "192.0.2.7") |};
         call_endpoint := "upload" |}]).
  - intros c Hc.
    repeat (apply elem_of_cons in Hc as [->|Hc];
            [eexists; split; [reflexivity|]; split; [done|];
             split; [intros Hx; not_in_literal Hx|reflexivity]|]).
    by apply elem_of_nil in Hc.
  - cbn [fmap list_fmap call_request x_forwarded_for].
    apply NoDup_cons. split.
    + intros [?|?%elem_of_nil]%elem_of_cons; done.
    + apply NoDup_singleton.
Defined.
